(** * A dynamic-linker simulation over a paged virtual memory

    Shallow embedding of [dynamic-linker-sim.cpp]: the page-granular
    [VirtualMemory], the [Library] / [Executable] objects that live in it and
    the [DynamicLinker] that resolves relocations against loaded libraries.

    Conventions of the embedding.
    - [size_t] and [uint64_t] are 64-bit unsigned integers: values are [Z]
      and every operation that can leave the range is wrapped by [wrap64].
    - [std::array] is a [list]; [operator[]] does no bounds check in C++, so
      an index past the end has no defined behaviour: the embedding reports
      it as the outcome [Undefined].
    - a C++ exception is the outcome [Throw]: it carries the state reached
      when it was raised, since nothing is rolled back.
    - [std::shared_ptr<T>] is an index into a store of [T] objects.
    - a [uint64_t] written through a [void*] is laid out little-endian. *)

From Stdlib Require Import ZArith Lia Sorted.
From stdpp Require Import base tactics option list gmap strings.

Local Open Scope Z_scope.

(** ** Machine integers *)

Definition wrap64 (z : Z) : Z := z mod 2 ^ 64.

(** The [n] low bytes of [v], least significant first. *)
Fixpoint le_bytes (n : nat) (v : Z) : list Z :=
  match n with
  | O => []
  | S n' => v mod 256 :: le_bytes n' (v / 256)
  end.

(** ** Outcomes of a call and the monad of stateful, throwing code *)

Inductive error : Type :=
  | OutOfMemory
  | SegFaultWrite
  | SegFaultRead
  | UnresolvedSymbol (name : string).

Inductive outcome (S A : Type) : Type :=
  | Ret (a : A) (s : S)
  | Throw (e : error) (s : S)
  | Undefined.
Arguments Ret {S A} a s.
Arguments Throw {S A} e s.
Arguments Undefined {S A}.

Definition Exec (S A : Type) : Type := S -> outcome S A.

Definition ret {S A} (a : A) : Exec S A := fun s => Ret a s.
Definition throw {S A} (e : error) : Exec S A := fun s => Throw e s.
Definition undefined {S A} : Exec S A := fun _ => Undefined.
Definition bind {S A B} (m : Exec S A) (k : A -> Exec S B) : Exec S B :=
  fun s =>
    match m s with
    | Ret a s' => k a s'
    | Throw e s' => Throw e s'
    | Undefined => Undefined
    end.
Definition get {S} : Exec S S := fun s => Ret s s.
Definition modify {S} (f : S -> S) : Exec S unit := fun s => Ret tt (f s).

(** Run a computation on a component [prj] of a larger state. *)
Definition zoom {S T A} (prj : T -> S) (upd : S -> T -> T) (m : Exec S A)
  : Exec T A :=
  fun t =>
    match m (prj t) with
    | Ret a s' => Ret a (upd s' t)
    | Throw e s' => Throw e (upd s' t)
    | Undefined => Undefined
    end.

Declare Scope exec_scope.
Delimit Scope exec_scope with exec.
Notation "x <- c ;; k" := (bind c (fun x => k))
  (at level 100, c at next level, right associativity) : exec_scope.
Notation "c ;;; k" := (bind c (fun _ => k))
  (at level 100, right associativity) : exec_scope.
Local Open Scope exec_scope.

#[global] Instance error_eq_dec : EqDecision error.
Proof. solve_decision. Defined.
#[global] Instance outcome_eq_dec {S A} `{EqDecision S, EqDecision A} :
  EqDecision (outcome S A).
Proof. solve_decision. Defined.

(** The state in which a call stopped, when it has one. *)
Definition final_state {S A} (o : outcome S A) : option S :=
  match o with
  | Ret _ s | Throw _ s => Some s
  | Undefined => None
  end.

(** ** Virtual memory *)

Definition PAGE_SIZE : Z := 256.
Definition NUM_PAGES : Z := 256.
Definition MEMORY_SIZE : Z := PAGE_SIZE * NUM_PAGES.

Record VirtualMemory : Type := mkVM {
  memory : list Z;
  page_table : list bool;
  next_free_page : Z
}.

#[global] Instance VirtualMemory_eq_dec : EqDecision VirtualMemory.
Proof. solve_decision. Defined.

(** [VirtualMemory() : memory{}, page_table{} {}] *)
Definition VirtualMemory_new : VirtualMemory :=
  {| memory := replicate (Z.to_nat MEMORY_SIZE) 0;
     page_table := replicate (Z.to_nat NUM_PAGES) false;
     next_free_page := 0 |}.

(** What the types of the fields and the guard of [allocate] maintain. *)
Record vm_wf (vm : VirtualMemory) : Prop := {
  wf_memory : Z.of_nat (length (memory vm)) = MEMORY_SIZE;
  wf_page_table : Z.of_nat (length (page_table vm)) = NUM_PAGES;
  wf_cursor : 0 <= next_free_page vm <= NUM_PAGES
}.

(** One iteration of the loop of [allocate]:
    [page_table[next_free_page++] = true], reached only below [NUM_PAGES]. *)
Definition flag_next_page (vm : VirtualMemory) : VirtualMemory :=
  {| memory := memory vm;
     page_table := <[Z.to_nat (next_free_page vm) := true]> (page_table vm);
     next_free_page := next_free_page vm + 1 |}.

Fixpoint allocate_loop (n : nat) : Exec VirtualMemory unit :=
  match n with
  | O => ret tt
  | S n' =>
      vm <- get ;;
      if NUM_PAGES <=? next_free_page vm then throw OutOfMemory
      else (modify flag_next_page ;;; allocate_loop n')
  end.

Definition pages_needed (size : Z) : Z := wrap64 (size + PAGE_SIZE - 1) / PAGE_SIZE.

Definition allocate (size : Z) : Exec VirtualMemory Z :=
  vm <- get ;;
  let start_page := next_free_page vm in
  allocate_loop (Z.to_nat (pages_needed size)) ;;;
  ret (wrap64 (start_page * PAGE_SIZE)).

Definition set_memory (a : nat) (b : Z) (vm : VirtualMemory) : VirtualMemory :=
  {| memory := <[a := b]> (memory vm);
     page_table := page_table vm;
     next_free_page := next_free_page vm |}.

(** The loop of [write], from offset [i] on; [data] holds the bytes not yet
    stored, so the loop runs [size] times. *)
Fixpoint write_loop (address i : Z) (data : list Z) : Exec VirtualMemory unit :=
  match data with
  | [] => ret tt
  | b :: rest =>
      vm <- get ;;
      let page := wrap64 (address + i) / PAGE_SIZE in
      match page_table vm !! Z.to_nat page with
      | None => undefined
      | Some false => throw SegFaultWrite
      | Some true =>
          let a := Z.to_nat (wrap64 (address + i)) in
          if decide (a < length (memory vm))%nat
          then (modify (set_memory a b) ;;; write_loop address (i + 1) rest)
          else undefined
      end
  end.

Definition write (address : Z) (data : list Z) : Exec VirtualMemory unit :=
  write_loop address 0 data.

(** The loop of [read]; the bytes are returned in place of the out-buffer. *)
Fixpoint read_loop (address i : Z) (n : nat) : Exec VirtualMemory (list Z) :=
  match n with
  | O => ret []
  | S n' =>
      vm <- get ;;
      let page := wrap64 (address + i) / PAGE_SIZE in
      match page_table vm !! Z.to_nat page with
      | None => undefined
      | Some false => throw SegFaultRead
      | Some true =>
          match memory vm !! Z.to_nat (wrap64 (address + i)) with
          | None => undefined
          | Some b =>
              rest <- read_loop address (i + 1) n' ;;
              ret (b :: rest)
          end
      end
  end.

Definition read (address size : Z) : Exec VirtualMemory (list Z) :=
  read_loop address 0 (Z.to_nat size).

(** [print_memory]: the bytes it shows; there is no page check. *)
Fixpoint print_memory_loop (start i : Z) (n : nat) : Exec VirtualMemory (list Z) :=
  match n with
  | O => ret []
  | S n' =>
      vm <- get ;;
      match memory vm !! Z.to_nat (wrap64 (start + i)) with
      | None => undefined
      | Some b =>
          rest <- print_memory_loop start (i + 1) n' ;;
          ret (b :: rest)
      end
  end.

Definition print_memory (start size : Z) : Exec VirtualMemory (list Z) :=
  print_memory_loop start 0 (Z.to_nat size).

(** ** Symbols, relocations, libraries and executables *)

Record Symbol : Type := mkSymbol {
  sym_name : string;
  sym_address : Z
}.

Record Relocation : Type := mkRelocation {
  symbolName : string;
  offset : Z
}.

#[global] Instance Symbol_eq_dec : EqDecision Symbol.
Proof. solve_decision. Defined.
#[global] Instance Relocation_eq_dec : EqDecision Relocation.
Proof. solve_decision. Defined.

(** [std::shared_ptr<Library>] and [std::shared_ptr<Executable>]. *)
Definition LibRef : Type := nat.
Definition ExeRef : Type := nat.

Record Library : Type := mkLibrary {
  lib_name : string;
  lib_base_address : Z;
  symbols : gmap string Symbol
}.

Record Executable : Type := mkExecutable {
  exe_name : string;
  exe_base_address : Z;
  dependencies : list LibRef;
  relocations : list Relocation;
  symbolAddresses : gmap string Z
}.

(** The global [vm] and the objects made by [std::make_shared]. *)
Record World : Type := mkWorld {
  vm : VirtualMemory;
  libs : list Library;
  exes : list Executable
}.

#[global] Instance Library_eq_dec : EqDecision Library.
Proof. solve_decision. Defined.
#[global] Instance Executable_eq_dec : EqDecision Executable.
Proof. solve_decision. Defined.
#[global] Instance World_eq_dec : EqDecision World.
Proof. solve_decision. Defined.

Definition World_new : World :=
  {| vm := VirtualMemory_new; libs := []; exes := [] |}.

Definition set_vm (v : VirtualMemory) (w : World) : World :=
  {| vm := v; libs := libs w; exes := exes w |}.
Definition set_lib (r : LibRef) (l : Library) (w : World) : World :=
  {| vm := vm w; libs := <[r := l]> (libs w); exes := exes w |}.
Definition set_exe (r : ExeRef) (e : Executable) (w : World) : World :=
  {| vm := vm w; libs := libs w; exes := <[r := e]> (exes w) |}.
Definition push_lib (l : Library) (w : World) : World :=
  {| vm := vm w; libs := libs w ++ [l]; exes := exes w |}.
Definition push_exe (e : Executable) (w : World) : World :=
  {| vm := vm w; libs := libs w; exes := exes w ++ [e] |}.

Definition on_vm {A} (m : Exec VirtualMemory A) : Exec World A :=
  zoom vm set_vm m.

(** [lib->...]: a pointer that owns no object cannot be dereferenced. *)
Definition deref_lib (r : LibRef) : Exec World Library :=
  fun w => match libs w !! r with
           | Some l => Ret l w
           | None => Undefined
           end.
Definition deref_exe (r : ExeRef) : Exec World Executable :=
  fun w => match exes w !! r with
           | Some e => Ret e w
           | None => Undefined
           end.

(** [std::make_shared<Library>(name)] *)
Definition Library_new (name : string) : Exec World LibRef :=
  base <- on_vm (allocate PAGE_SIZE) ;;
  w <- get ;;
  modify (push_lib {| lib_name := name; lib_base_address := base; symbols := ∅ |}) ;;;
  ret (length (libs w)).

Definition dummy_func : Z := 0xDEADBEEF.

Definition with_symbol (name : string) (address : Z) (l : Library) : Library :=
  {| lib_name := lib_name l;
     lib_base_address := lib_base_address l;
     symbols := <[name := mkSymbol name address]> (symbols l) |}.

Definition addSymbol (lib : LibRef) (name : string) (offset : Z) : Exec World unit :=
  l <- deref_lib lib ;;
  let address := wrap64 (lib_base_address l + offset) in
  modify (set_lib lib (with_symbol name address l)) ;;;
  on_vm (write address (le_bytes 8 dummy_func)).

(** [nullptr] is [None]. *)
Definition findSymbol (l : Library) (name : string) : option Symbol :=
  symbols l !! name.

(** [std::make_shared<Executable>(name)] *)
Definition Executable_new (name : string) : Exec World ExeRef :=
  base <- on_vm (allocate PAGE_SIZE) ;;
  w <- get ;;
  modify (push_exe {| exe_name := name; exe_base_address := base;
                      dependencies := []; relocations := [];
                      symbolAddresses := ∅ |}) ;;;
  ret (length (exes w)).

Definition addDependency (exe : ExeRef) (lib : LibRef) : Exec World unit :=
  e <- deref_exe exe ;;
  modify (set_exe exe {| exe_name := exe_name e;
                         exe_base_address := exe_base_address e;
                         dependencies := dependencies e ++ [lib];
                         relocations := relocations e;
                         symbolAddresses := symbolAddresses e |}).

Definition addRelocation (exe : ExeRef) (name : string) (off : Z) : Exec World unit :=
  e <- deref_exe exe ;;
  modify (set_exe exe {| exe_name := exe_name e;
                         exe_base_address := exe_base_address e;
                         dependencies := dependencies e;
                         relocations := relocations e ++ [mkRelocation name off];
                         symbolAddresses := symbolAddresses e |}).

Definition with_symbolAddress (name : string) (a : Z) (e : Executable) : Executable :=
  {| exe_name := exe_name e;
     exe_base_address := exe_base_address e;
     dependencies := dependencies e;
     relocations := relocations e;
     symbolAddresses := <[name := a]> (symbolAddresses e) |}.

(** ** The registry of the linker

    [loadedLibraries] is a [std::unordered_map]: the linker iterates over it,
    and the standard leaves the order of iteration to the implementation.
    The registry is kept as the sequence of entries in iteration order, with
    one entry per key.  Assigning to a key that is present changes the mapped
    value in place; where the entry of a new key lands, and how the entries
    already there are rearranged by a rehash, is the implementation's choice:
    [um_place], about which only [um_place_perm] is known. *)

Definition registry : Type := list (string * LibRef).

Record UnorderedMapOrder : Type := {
  um_place : string -> LibRef -> registry -> registry;
  um_place_perm : forall k v (l : registry), um_place k v l ≡ₚ (k, v) :: l
}.

(** [m.find(k)] *)
Fixpoint um_find (k : string) (l : registry) : option LibRef :=
  match l with
  | [] => None
  | (k', v) :: rest => if decide (k' = k) then Some v else um_find k rest
  end.

Fixpoint um_replace (k : string) (v : LibRef) (l : registry) : registry :=
  match l with
  | [] => []
  | (k', v') :: rest =>
      if decide (k' = k) then (k', v) :: rest else (k', v') :: um_replace k v rest
  end.

(** [m[k] = v] *)
Definition um_assign (O : UnorderedMapOrder) (k : string) (v : LibRef)
    (l : registry) : registry :=
  match um_find k l with
  | Some _ => um_replace k v l
  | None => um_place O k v l
  end.

(** Two implementations: the entry of a new key goes to the front of the
    sequence, or to its end. *)
Program Definition newest_first : UnorderedMapOrder :=
  {| um_place := fun k v l => (k, v) :: l |}.
Next Obligation. reflexivity. Qed.

Program Definition oldest_first : UnorderedMapOrder :=
  {| um_place := fun k v l => l ++ [(k, v)] |}.
Next Obligation. intros k v l. by rewrite Permutation_cons_append. Qed.

(** A third, for each assignment [bucket] of keys to buckets: a table with a
    fixed array of buckets that keeps its nodes in one list, the nodes of a
    bucket next to each other, and links the node of a new key at the head
    of its bucket, or at the head of the list when the bucket is empty (the
    scheme of libstdc++, as long as there is no rehash). *)
Fixpoint link_in_bucket (bucket : string -> nat) (k : string) (v : LibRef)
    (l : registry) : option registry :=
  match l with
  | [] => None
  | (k', v') :: rest =>
      if decide (bucket k' = bucket k) then Some ((k, v) :: (k', v') :: rest)
      else cons (k', v') <$> link_in_bucket bucket k v rest
  end.

Definition bucket_place (bucket : string -> nat) (k : string) (v : LibRef)
    (l : registry) : registry :=
  default ((k, v) :: l) (link_in_bucket bucket k v l).

Program Definition bucket_order (bucket : string -> nat) : UnorderedMapOrder :=
  {| um_place := bucket_place bucket |}.
Next Obligation.
  intros bucket k v l. unfold bucket_place.
  destruct (link_in_bucket bucket k v l) as [l'|] eqn:E; [|done].
  cbn [default]. revert l' E. induction l as [|[k' v'] rest IH]; intros l' E; [done|].
  cbn [link_in_bucket] in E. case_decide; [by simplify_eq|].
  destruct (link_in_bucket bucket k v rest) as [l''|]; [|done].
  cbn in E. simplify_eq. rewrite (IH l'' eq_refl). apply Permutation_swap.
Qed.

(** ** The dynamic linker *)

Record DynamicLinker : Type := mkLinker {
  loadedLibraries : registry
}.

(** A linker object together with the world it runs in. *)
Record Linking : Type := mkLinking {
  linker : DynamicLinker;
  world : World
}.

#[global] Instance DynamicLinker_eq_dec : EqDecision DynamicLinker.
Proof. solve_decision. Defined.
#[global] Instance Linking_eq_dec : EqDecision Linking.
Proof. solve_decision. Defined.

Definition set_world (w : World) (s : Linking) : Linking :=
  {| linker := linker s; world := w |}.
Definition set_registry (r : registry) (s : Linking) : Linking :=
  {| linker := {| loadedLibraries := r |}; world := world s |}.

Definition in_world {A} (m : Exec World A) : Exec Linking A :=
  zoom world set_world m.

(** The search of [linkExecutable] through the registry, in iteration order,
    for the first library whose [findSymbol] succeeds. *)
Fixpoint resolve (name : string) (l : registry) : Exec World (option (string * Symbol)) :=
  match l with
  | [] => ret None
  | (k, r) :: rest =>
      lib <- deref_lib r ;;
      match findSymbol lib name with
      | Some s => ret (Some (k, s))
      | None => resolve name rest
      end
  end.

(** The body of the relocation loop of [linkExecutable]. *)
Definition relocate (exe : ExeRef) (relocation : Relocation) : Exec Linking unit :=
  s <- get ;;
  resolvedSymbol <- in_world (resolve (symbolName relocation)
                                      (loadedLibraries (linker s))) ;;
  match resolvedSymbol with
  | None => throw (UnresolvedSymbol (symbolName relocation))
  | Some (_, sym) =>
      let relocatedAddress := sym_address sym in
      e <- in_world (deref_exe exe) ;;
      in_world (modify (set_exe exe
        (with_symbolAddress (symbolName relocation) relocatedAddress e))) ;;;
      let relocationAddress := wrap64 (exe_base_address e + offset relocation) in
      in_world (on_vm (write relocationAddress (le_bytes 8 relocatedAddress)))
  end.

Fixpoint relocate_all (exe : ExeRef) (rs : list Relocation) : Exec Linking unit :=
  match rs with
  | [] => ret tt
  | r :: rest => relocate exe r ;;; relocate_all exe rest
  end.

Section Linker.
Context (O : UnorderedMapOrder).

Definition loadLibrary (lib : LibRef) : Exec Linking unit :=
  l <- in_world (deref_lib lib) ;;
  modify (fun s => set_registry
            (um_assign O (lib_name l) lib (loadedLibraries (linker s))) s).

Fixpoint load_dependencies (deps : list LibRef) : Exec Linking unit :=
  match deps with
  | [] => ret tt
  | dep :: rest =>
      d <- in_world (deref_lib dep) ;;
      s <- get ;;
      match um_find (lib_name d) (loadedLibraries (linker s)) with
      | None => loadLibrary dep
      | Some _ => ret tt
      end ;;;
      load_dependencies rest
  end.

Definition linkExecutable (exe : ExeRef) : Exec Linking unit :=
  e <- in_world (deref_exe exe) ;;
  load_dependencies (dependencies e) ;;;
  relocate_all exe (relocations e).

End Linker.

(** ** Vocabulary of the statements *)

(** [n] iterations of the loop of [allocate] that all pass the guard. *)
Definition flag_pages (n : nat) (vm : VirtualMemory) : VirtualMemory :=
  Nat.iter n flag_next_page vm.

(** The page holding address [a] is flagged allocated. *)
Definition allocated (vm : VirtualMemory) (a : Z) : Prop :=
  page_table vm !! Z.to_nat (a / PAGE_SIZE) = Some true.

(** Memory after [data] has been stored byte by byte from index [a] on. *)
Fixpoint store_bytes (a : nat) (data : list Z) (mem : list Z) : list Z :=
  match data with
  | [] => mem
  | b :: rest => store_bytes (S a) rest (<[a := b]> mem)
  end.

Definition with_memory (mem : list Z) (vm : VirtualMemory) : VirtualMemory :=
  {| memory := mem; page_table := page_table vm;
     next_free_page := next_free_page vm |}.

(** The least number of pages that hold [size] bytes. *)
Definition ceil_div (size page : Z) : Z :=
  size / page + (if size mod page =? 0 then 0 else 1).

(** A run of calls [allocate(s1), allocate(s2), ...] that stops at the first
    exception; it returns the addresses. *)
Fixpoint allocate_all (sizes : list Z) : Exec VirtualMemory (list Z) :=
  match sizes with
  | [] => ret []
  | s :: rest =>
      a <- allocate s ;;
      addrs <- allocate_all rest ;;
      ret (a :: addrs)
  end.

(** Forward-only allocation: the cursor has not moved back and no page that
    was flagged has lost its flag. *)
Definition forward_only (vm vm' : VirtualMemory) : Prop :=
  next_free_page vm <= next_free_page vm' /\
  forall p : nat, page_table vm !! p = Some true -> page_table vm' !! p = Some true.

(** The operations of the address space, and runs of them by a caller that
    catches every exception and goes on.  A run has a state as long as no
    call has left defined behaviour. *)
Inductive vm_op : Type :=
  | OpAllocate (size : Z)
  | OpWrite (address : Z) (data : list Z)
  | OpRead (address size : Z)
  | OpDump (start size : Z).

Definition run_op (op : vm_op) (vm : VirtualMemory) : option VirtualMemory :=
  match op with
  | OpAllocate size => final_state (allocate size vm)
  | OpWrite address data => final_state (write address data vm)
  | OpRead address size => final_state (read address size vm)
  | OpDump start size => final_state (print_memory start size vm)
  end.

Fixpoint run_ops (ops : list vm_op) (vm : VirtualMemory) : option VirtualMemory :=
  match ops with
  | [] => Some vm
  | op :: rest =>
      match run_op op vm with
      | Some vm' => run_ops rest vm'
      | None => None
      end
  end.

(** A computation on the address space that keeps it well-formed. *)
Definition keeps_wf {A} (m : Exec VirtualMemory A) : Prop :=
  forall v o, vm_wf v -> final_state (m v) = Some o -> vm_wf o.

Definition sum_Z (l : list Z) : Z := foldr Z.add 0 l.

(** An address space with every page allocated. *)
Definition VirtualMemory_full : VirtualMemory :=
  flag_pages (Z.to_nat NUM_PAGES) VirtualMemory_new.

(** Observing an outcome. *)
Definition returned {S A} (o : outcome S A) : option A :=
  match o with
  | Ret a _ => Some a
  | _ => None
  end.

Definition thrown {S A} (o : outcome S A) : option error :=
  match o with
  | Throw e _ => Some e
  | _ => None
  end.

(** The state a call leaves behind, whether it returns or throws. *)
Definition state_after {S A} (m : Exec S A) (s : S) : S :=
  match m s with
  | Ret _ s' | Throw _ s' => s'
  | Undefined => s
  end.

(** ** Scenarios *)

(** Two libraries on neighbouring pages. *)
Definition two_libraries : Exec World (LibRef * LibRef) :=
  a <- Library_new "liba.so" ;;
  b <- Library_new "libb.so" ;;
  ret (a, b).

(** Two library objects of one name. *)
Definition same_name_libraries : Exec World (LibRef * LibRef) :=
  a <- Library_new "libm.so" ;;
  b <- Library_new "libm.so" ;;
  ret (a, b).

(** A library that exports ["g"], two libraries that both export ["h"], and
    an executable that needs ["h"]. *)
Definition colliding_libraries : Exec World (LibRef * LibRef * LibRef * ExeRef) :=
  a <- Library_new "liba.so" ;;
  addSymbol a "g" 0x10 ;;;
  b <- Library_new "libb.so" ;;
  addSymbol b "h" 0x20 ;;;
  c <- Library_new "libc.so" ;;
  addSymbol c "h" 0x30 ;;;
  e <- Executable_new "app" ;;
  addRelocation e "h" 0 ;;;
  ret (a, b, c, e).

(** Two libraries that both export ["h"], and an executable that names them
    as dependencies in the order of their construction and needs ["h"]. *)
Definition two_exporters : Exec World (LibRef * LibRef * ExeRef) :=
  a <- Library_new "liba.so" ;;
  addSymbol a "h" 0x10 ;;;
  b <- Library_new "libb.so" ;;
  addSymbol b "h" 0x20 ;;;
  e <- Executable_new "app" ;;
  addDependency e a ;;;
  addDependency e b ;;;
  addRelocation e "h" 0 ;;;
  ret (a, b, e).

(** A library that exports ["f"] and an executable whose second relocation
    names a symbol that nothing exports. *)
Definition missing_symbol : Exec World (LibRef * ExeRef) :=
  a <- Library_new "libf.so" ;;
  addSymbol a "f" 0x10 ;;;
  e <- Executable_new "app" ;;
  addDependency e a ;;;
  addRelocation e "f" 0 ;;;
  addRelocation e "g" 8 ;;;
  addRelocation e "f" 16 ;;;
  ret (a, e).

(** A library that exports ["x"] and an executable that needs it but does
    not name the library as a dependency. *)
Definition undeclared_dependency : Exec World (LibRef * ExeRef) :=
  a <- Library_new "libx.so" ;;
  addSymbol a "x" 0x10 ;;;
  e <- Executable_new "app" ;;
  addRelocation e "x" 0 ;;;
  ret (a, e).

Definition fresh_linker (w : World) : Linking :=
  {| linker := {| loadedLibraries := [] |}; world := w |}.

(** ** Vocabulary of the statements about linking *)

(** The address that the search of [linkExecutable] finds for [name]. *)
Definition resolved_address (s : Linking) (name : string) : option Z :=
  match returned (resolve name (loadedLibraries (linker s)) (world s)) with
  | Some (Some (_, sym)) => Some (sym_address sym)
  | _ => None
  end.

(** The library of a registry entry exists and does not export [name]. *)
Definition exports_nothing (ls : list Library) (name : string)
    (entry : string * LibRef) : Prop :=
  (fun l => findSymbol l name) <$> ls !! entry.2 = Some None.

#[global] Instance exports_nothing_dec ls name entry :
  Decision (exports_nothing ls name entry).
Proof. unfold exports_nothing. apply _. Defined.

(** No loaded library exports [name]. *)
Definition unexported (name : string) (s : Linking) : Prop :=
  Forall (exports_nothing (libs (world s)) name) (loadedLibraries (linker s)).

#[global] Instance unexported_dec name s : Decision (unexported name s).
Proof. unfold unexported. apply _. Defined.

(** [symbolAddresses] after the entries of [l] have been recorded in order. *)
Definition record_all (m : gmap string Z) (l : list (Relocation * Z)) : gmap string Z :=
  foldl (fun m p => <[symbolName p.1 := p.2]> m) m l.

(** The writes of the relocations [l], applied in order. *)
Fixpoint write_all (base : Z) (l : list (Relocation * Z)) : Exec VirtualMemory unit :=
  match l with
  | [] => ret tt
  | (r, a) :: rest =>
      write (wrap64 (base + offset r)) (le_bytes 8 a) ;;;
      write_all base rest
  end.

Definition with_symbolAddresses (m : gmap string Z) (e : Executable) : Executable :=
  {| exe_name := exe_name e;
     exe_base_address := exe_base_address e;
     dependencies := dependencies e;
     relocations := relocations e;
     symbolAddresses := m |}.

(** ** Vocabulary of the further statements *)

(** The pages that are flagged are the pages below the cursor. *)
Definition pages_below_cursor (vm : VirtualMemory) : Prop :=
  forall p : nat, (p < length (page_table vm))%nat ->
    page_table vm !! p = Some (bool_decide (Z.of_nat p < next_free_page vm)).

(** The range of an operation lies inside the address space; [allocate]
    takes any size. *)
Definition op_inside (op : vm_op) : Prop :=
  match op with
  | OpAllocate size => True
  | OpWrite address data =>
      0 <= address /\ address + Z.of_nat (length data) <= MEMORY_SIZE
  | OpRead address size | OpDump address size =>
      0 <= address /\ 0 <= size /\ address + size <= MEMORY_SIZE
  end.






(** The base addresses of the objects of a world. *)
Definition bases (w : World) : list Z :=
  (lib_base_address <$> libs w) ++ (exe_base_address <$> exes w).

(** What the constructors and methods keep of a world: the address space is
    well-formed, its flagged pages are the pages below the cursor, and the
    objects have distinct page-aligned bases below the cursor, one object
    for each page. *)
Record World_inv (w : World) : Prop := {
  inv_vm : vm_wf (vm w);
  inv_pages : pages_below_cursor (vm w);
  inv_bases :
    Forall (fun b => 0 <= b /\ b mod PAGE_SIZE = 0 /\
                     b < next_free_page (vm w) * PAGE_SIZE) (bases w);
  inv_distinct : NoDup (bases w);
  inv_count : Z.of_nat (length (bases w)) = next_free_page (vm w)
}.

(** What a linker keeps on top: distinct keys, each the name of the live
    library it maps to. *)
Record Linking_inv (s : Linking) : Prop := {
  inv_world : World_inv (world s);
  inv_keys : NoDup (loadedLibraries (linker s)).*1;
  inv_entries :
    Forall (fun p => lib_name <$> libs (world s) !! p.2 = Some p.1)
           (loadedLibraries (linker s))
}.

(** Two worlds with the same pages, objects, bases and library names. *)
Definition same_layout (w w' : World) : Prop :=
  page_table (vm w') = page_table (vm w) /\
  next_free_page (vm w') = next_free_page (vm w) /\
  length (memory (vm w')) = length (memory (vm w)) /\
  bases w' = bases w /\
  lib_name <$> libs w' = lib_name <$> libs w.

(** The calls a program can make, on one linker at a time. *)
Inductive api_op : Type :=
  | ApiLibrary (name : string)
  | ApiAddSymbol (lib : LibRef) (name : string) (off : Z)
  | ApiExecutable (name : string)
  | ApiAddDependency (exe : ExeRef) (lib : LibRef)
  | ApiAddRelocation (exe : ExeRef) (name : string) (off : Z)
  | ApiNewLinker
  | ApiLoadLibrary (lib : LibRef)
  | ApiLink (exe : ExeRef).

Definition run_api (O : UnorderedMapOrder) (op : api_op) (s : Linking)
    : option Linking :=
  match op with
  | ApiLibrary name => final_state (in_world (Library_new name) s)
  | ApiAddSymbol lib name off => final_state (in_world (addSymbol lib name off) s)
  | ApiExecutable name => final_state (in_world (Executable_new name) s)
  | ApiAddDependency exe lib => final_state (in_world (addDependency exe lib) s)
  | ApiAddRelocation exe name off =>
      final_state (in_world (addRelocation exe name off) s)
  | ApiNewLinker => Some (fresh_linker (world s))
  | ApiLoadLibrary lib => final_state (loadLibrary O lib s)
  | ApiLink exe => final_state (linkExecutable O exe s)
  end.

Fixpoint run_apis (O : UnorderedMapOrder) (ops : list api_op) (s : Linking)
    : option Linking :=
  match ops with
  | [] => Some s
  | op :: rest =>
      match run_api O op s with
      | Some s' => run_apis O rest s'
      | None => None
      end
  end.

(** The 8 bytes at [base + off], a [uint64_t] sum, lie inside the address
    space. *)
Definition inside (base off : Z) : Prop :=
  wrap64 (base + off) + 8 <= MEMORY_SIZE.

#[global] Instance inside_dec base off : Decision (inside base off).
Proof. unfold inside. apply _. Defined.

(** What a call needs to stay inside the arrays and away from dead pointers:
    the objects it is given exist, and the 8 bytes that [addSymbol] writes,
    and those that [linkExecutable] writes for each relocation, lie inside
    the address space. *)
Definition api_defined (s : Linking) (op : api_op) : Prop :=
  match op with
  | ApiLibrary _ | ApiExecutable _ | ApiNewLinker => True
  | ApiAddSymbol lib _ off =>
      match libs (world s) !! lib with
      | Some l => inside (lib_base_address l) off
      | None => False
      end
  | ApiAddDependency exe lib =>
      is_Some (exes (world s) !! exe) /\ is_Some (libs (world s) !! lib)
  | ApiAddRelocation exe _ _ => is_Some (exes (world s) !! exe)
  | ApiLoadLibrary lib => is_Some (libs (world s) !! lib)
  | ApiLink exe =>
      match exes (world s) !! exe with
      | Some e =>
          Forall (fun dep => is_Some (libs (world s) !! dep)) (dependencies e) /\
          Forall (fun r => inside (exe_base_address e) (offset r)) (relocations e)
      | None => False
      end
  end.

#[global] Instance api_defined_dec s op : Decision (api_defined s op).
Proof.
  destruct op; cbn [api_defined]; try apply _.
  - destruct (libs (world s) !! lib); apply _.
  - destruct (exes (world s) !! exe); apply _.
Defined.

(** Every call of a program meets [api_defined] in the state in which it is
    made. *)
Fixpoint program_defined (O : UnorderedMapOrder) (ops : list api_op)
    (s : Linking) : Prop :=
  match ops with
  | [] => True
  | op :: rest =>
      api_defined s op /\
      match run_api O op s with
      | Some s' => program_defined O rest s'
      | None => True
      end
  end.

#[global] Instance program_defined_dec O ops s : Decision (program_defined O ops s).
Proof.
  revert s. induction ops as [|op rest IH]; intros s; cbn [program_defined].
  - apply _.
  - destruct (run_api O op s); apply _.
Defined.





(** * Properties of the virtual memory *)

Local Arguments Z.to_nat : simpl never.
Local Arguments Z.of_nat : simpl never.

(** Closed facts about concrete states are settled by running the decision
    procedure of the equality. *)
Ltac by_compute := apply (bool_decide_unpack _); vm_compute; exact I.

Lemma wrap64_small z : 0 <= z < 2 ^ 64 -> wrap64 z = z.
Proof. intros H. unfold wrap64. by apply Z.mod_small. Qed.

Lemma wrap64_range z : 0 <= wrap64 z < 2 ^ 64.
Proof. unfold wrap64. apply Z.mod_pos_bound. lia. Qed.

Lemma wrap64_plus_l a i : wrap64 (wrap64 a + i) = wrap64 (a + i).
Proof. unfold wrap64. apply Zplus_mod_idemp_l. Qed.


Lemma VirtualMemory_new_wf : vm_wf VirtualMemory_new.
Proof.
  split; unfold VirtualMemory_new; cbn [memory page_table next_free_page].
  - rewrite length_replicate. unfold MEMORY_SIZE, PAGE_SIZE, NUM_PAGES. lia.
  - rewrite length_replicate. unfold NUM_PAGES. lia.
  - unfold NUM_PAGES. lia.
Qed.

(** ** [allocate] *)

Lemma flag_pages_S n vm : flag_pages (S n) vm = flag_next_page (flag_pages n vm).
Proof. reflexivity. Qed.

Lemma flag_pages_shift n vm :
  flag_pages n (flag_next_page vm) = flag_pages (S n) vm.
Proof.
  induction n as [|n IH]; [done|].
  rewrite flag_pages_S, IH. reflexivity.
Qed.

Lemma flag_pages_cursor n vm :
  next_free_page (flag_pages n vm) = next_free_page vm + Z.of_nat n.
Proof.
  induction n as [|n IH]; simpl; [lia|].
  fold (flag_pages n vm). rewrite IH. lia.
Qed.

Lemma flag_pages_memory n vm : memory (flag_pages n vm) = memory vm.
Proof. induction n as [|n IH]; simpl; [done|]. exact IH. Qed.

Lemma flag_pages_length n vm :
  length (page_table (flag_pages n vm)) = length (page_table vm).
Proof.
  induction n as [|n IH]; simpl; [done|].
  fold (flag_pages n vm). by rewrite length_insert.
Qed.

Lemma flag_pages_keeps n vm (p : nat) :
  page_table vm !! p = Some true ->
  page_table (flag_pages n vm) !! p = Some true.
Proof.
  intros Hp. induction n as [|n IH]; simpl; [done|].
  fold (flag_pages n vm).
  destruct (decide (Z.to_nat (next_free_page (flag_pages n vm)) = p)) as [->|Hne].
  - apply list_lookup_insert_eq. by eapply lookup_lt_Some.
  - by rewrite list_lookup_insert_ne.
Qed.

Lemma flag_pages_flagged n vm (p : Z) :
  0 <= next_free_page vm ->
  next_free_page vm <= p < next_free_page vm + Z.of_nat n ->
  (Z.to_nat p < length (page_table vm))%nat ->
  page_table (flag_pages n vm) !! Z.to_nat p = Some true.
Proof.
  intros H0. induction n as [|n IH]; intros Hp Hlen; [lia|].
  rewrite flag_pages_S. unfold flag_next_page at 1. simpl.
  rewrite flag_pages_cursor.
  destruct (decide (p = next_free_page vm + Z.of_nat n)) as [->|Hne].
  - apply list_lookup_insert_eq. by rewrite flag_pages_length.
  - rewrite list_lookup_insert_ne by lia. apply IH; [lia|done].
Qed.

Lemma flag_pages_other n vm (p : nat) :
  0 <= next_free_page vm ->
  (Z.of_nat p < next_free_page vm \/ next_free_page vm + Z.of_nat n <= Z.of_nat p) ->
  page_table (flag_pages n vm) !! p = page_table vm !! p.
Proof.
  intros H0. induction n as [|n IH]; intros Hp; [done|].
  rewrite flag_pages_S. unfold flag_next_page at 1. simpl.
  rewrite flag_pages_cursor.
  rewrite list_lookup_insert_ne by lia. apply IH. lia.
Qed.

Lemma flag_pages_wf n vm :
  vm_wf vm -> next_free_page vm + Z.of_nat n <= NUM_PAGES ->
  vm_wf (flag_pages n vm).
Proof.
  intros [Hm Hp Hc] Hn. split.
  - by rewrite flag_pages_memory.
  - by rewrite flag_pages_length.
  - rewrite flag_pages_cursor. lia.
Qed.

(** The loop runs to its end when enough pages are left ... *)
Lemma allocate_loop_fits n vm :
  next_free_page vm + Z.of_nat n <= NUM_PAGES ->
  allocate_loop n vm = Ret tt (flag_pages n vm).
Proof.
  revert vm. induction n as [|n IH]; intros vm Hn; [done|].
  simpl. unfold bind, get, modify.
  destruct (Z.leb_spec NUM_PAGES (next_free_page vm)) as [Hge|Hlt]; [lia|].
  rewrite IH by (simpl; lia).
  by rewrite flag_pages_shift.
Qed.

(** ... and otherwise throws once it has flagged every page that was left. *)
Lemma allocate_loop_exhausts n vm :
  next_free_page vm <= NUM_PAGES ->
  NUM_PAGES < next_free_page vm + Z.of_nat n ->
  allocate_loop n vm =
    Throw OutOfMemory (flag_pages (Z.to_nat (NUM_PAGES - next_free_page vm)) vm).
Proof.
  revert vm. induction n as [|n IH]; intros vm Hle Hn; [lia|].
  simpl. unfold bind, get, modify.
  destruct (Z.leb_spec NUM_PAGES (next_free_page vm)) as [Hge|Hlt].
  - replace (NUM_PAGES - next_free_page vm) with 0 by lia. done.
  - rewrite IH by (simpl; lia). simpl.
    rewrite flag_pages_shift. do 2 f_equal. lia.
Qed.

Lemma pages_needed_range size : 0 <= pages_needed size.
Proof.
  unfold pages_needed. apply Z.div_pos; [|done].
  pose proof (wrap64_range (size + PAGE_SIZE - 1)). lia.
Qed.

Lemma allocate_fits size vm :
  vm_wf vm ->
  next_free_page vm + pages_needed size <= NUM_PAGES ->
  allocate size vm =
    Ret (next_free_page vm * PAGE_SIZE)
        (flag_pages (Z.to_nat (pages_needed size)) vm).
Proof.
  intros [_ _ Hc] Hn. pose proof (pages_needed_range size).
  unfold allocate, bind, get. rewrite allocate_loop_fits by lia.
  unfold ret. f_equal. apply wrap64_small.
  unfold NUM_PAGES, PAGE_SIZE in *. lia.
Qed.

Lemma allocate_exhausts size vm :
  vm_wf vm ->
  NUM_PAGES < next_free_page vm + pages_needed size ->
  allocate size vm =
    Throw OutOfMemory (flag_pages (Z.to_nat (NUM_PAGES - next_free_page vm)) vm).
Proof.
  intros [_ _ Hc] Hn. pose proof (pages_needed_range size).
  unfold allocate, bind, get. by rewrite allocate_loop_exhausts by lia.
Qed.

Lemma allocate_cases size vm :
  vm_wf vm ->
  (next_free_page vm + pages_needed size <= NUM_PAGES /\
   allocate size vm =
     Ret (next_free_page vm * PAGE_SIZE)
         (flag_pages (Z.to_nat (pages_needed size)) vm)) \/
  (NUM_PAGES < next_free_page vm + pages_needed size /\
   allocate size vm =
     Throw OutOfMemory (flag_pages (Z.to_nat (NUM_PAGES - next_free_page vm)) vm)).
Proof.
  intros Hwf.
  destruct (Z_le_gt_dec (next_free_page vm + pages_needed size) NUM_PAGES).
  - left. split; [done|]. by apply allocate_fits.
  - right. split; [lia|]. apply allocate_exhausts; [done|lia].
Qed.

Lemma allocate_wf size vm o :
  vm_wf vm -> final_state (allocate size vm) = Some o -> vm_wf o.
Proof.
  intros Hwf Ho. pose proof (pages_needed_range size).
  destruct (allocate_cases size vm Hwf) as [[Hn E]|[Hn E]];
    rewrite E in Ho; simpl in Ho; simplify_eq.
  - apply flag_pages_wf; [done|lia].
  - destruct Hwf as [? ? Hc]. apply flag_pages_wf; [done|lia].
Qed.

Lemma allocate_loop_forward n vm o :
  final_state (allocate_loop n vm) = Some o -> forward_only vm o.
Proof.
  revert vm. induction n as [|n IH]; intros vm Ho.
  - simpl in Ho. simplify_eq. by split.
  - simpl in Ho. unfold bind, get, modify in Ho.
    destruct (NUM_PAGES <=? next_free_page vm).
    + simpl in Ho. simplify_eq. by split.
    + destruct (IH _ Ho) as [Hc Hp]. simpl in Hc. split; [lia|].
      intros p Hpt. apply Hp. simpl.
      destruct (decide (Z.to_nat (next_free_page vm) = p)) as [->|Hne].
      * apply list_lookup_insert_eq. by eapply lookup_lt_Some.
      * by rewrite list_lookup_insert_ne.
Qed.

Lemma allocate_forward size vm o :
  final_state (allocate size vm) = Some o -> forward_only vm o.
Proof.
  unfold allocate, bind, get. intros Ho.
  apply (allocate_loop_forward (Z.to_nat (pages_needed size))).
  destruct (allocate_loop _ vm); simpl in *; done.
Qed.

Lemma forward_only_refl vm : forward_only vm vm.
Proof. by split. Qed.

Lemma forward_only_trans vm1 vm2 vm3 :
  forward_only vm1 vm2 -> forward_only vm2 vm3 -> forward_only vm1 vm3.
Proof. intros [H1 H2] [H3 H4]. split; [lia|]. intros p Hp. auto. Qed.

(** [write] changes the bytes only. *)
Lemma write_loop_frame address i data vm o :
  final_state (write_loop address i data vm) = Some o ->
  page_table o = page_table vm /\ next_free_page o = next_free_page vm /\
  length (memory o) = length (memory vm).
Proof.
  revert i vm. induction data as [|b rest IH]; intros i vm Ho.
  - simpl in Ho. by simplify_eq.
  - simpl in Ho. unfold bind, get, modify in Ho.
    destruct (page_table vm !! _) as [[]|]; simpl in Ho; simplify_eq; [|done].
    destruct (decide _); simpl in Ho; simplify_eq.
    destruct (IH _ _ Ho) as (-> & -> & ->). simpl. by rewrite length_insert.
Qed.

(** [read] and [print_memory] change nothing. *)
Lemma read_loop_const address i n vm o :
  final_state (read_loop address i n vm) = Some o -> o = vm.
Proof.
  revert i. induction n as [|n IH]; intros i Ho.
  - simpl in Ho. by simplify_eq.
  - simpl in Ho. unfold bind, get in Ho.
    destruct (page_table vm !! _) as [[]|]; simpl in Ho; simplify_eq; [|done].
    destruct (memory vm !! _); simpl in Ho; simplify_eq.
    apply (IH (i + 1)).
    destruct (read_loop address (i + 1) n vm); simpl in *; done.
Qed.

Lemma print_memory_loop_const start i n vm o :
  final_state (print_memory_loop start i n vm) = Some o -> o = vm.
Proof.
  revert i. induction n as [|n IH]; intros i Ho.
  - simpl in Ho. by simplify_eq.
  - simpl in Ho. unfold bind, get in Ho.
    destruct (memory vm !! _); simpl in Ho; simplify_eq.
    apply (IH (i + 1)).
    destruct (print_memory_loop start (i + 1) n vm); simpl in *; done.
Qed.

Lemma run_op_forward op vm o : run_op op vm = Some o -> forward_only vm o.
Proof.
  destruct op as [size|address data|address size|start size]; simpl; intros Ho.
  - by eapply allocate_forward.
  - apply write_loop_frame in Ho as (Hp & Hc & _). split; [lia|]. by rewrite Hp.
  - apply read_loop_const in Ho as ->. apply forward_only_refl.
  - apply print_memory_loop_const in Ho as ->. apply forward_only_refl.
Qed.

(** Every run that starts in a well-formed address space stays in one. *)
Lemma run_op_wf op vm o : vm_wf vm -> run_op op vm = Some o -> vm_wf o.
Proof.
  intros Hwf. destruct op as [size|address data|address size|start size];
    cbn [run_op]; intros Ho.
  - by eapply allocate_wf.
  - apply write_loop_frame in Ho as (Hp & Hc & Hm).
    destruct Hwf as [Hm0 Hp0 Hc0]. split; congruence.
  - by apply read_loop_const in Ho as ->.
  - by apply print_memory_loop_const in Ho as ->.
Qed.

Lemma run_ops_wf ops vm vm' : vm_wf vm -> run_ops ops vm = Some vm' -> vm_wf vm'.
Proof.
  revert vm. induction ops as [|op rest IH]; intros vm Hwf Hrun.
  - cbn in Hrun. by simplify_eq.
  - cbn [run_ops] in Hrun. destruct (run_op op vm) as [vm1|] eqn:Hop; [|done].
    eapply IH; [|done]. by eapply run_op_wf.
Qed.

(** C7. The forward-only invariant is not kept by every sequence of
    operations.  [write] and [read] never compare the page index with
    [NUM_PAGES]: in the run [allocate(1); write(65536, {0}, 1)] page 0 is
    flagged by the first call, and the second call indexes [page_table] at
    256 and [memory] at 65536, one past the end of each array.  The call has
    no defined outcome and the run no state, so nothing in the source keeps
    the flag of page 0 or the cursor where they were. *)
Theorem forward_only_lost_beyond_memory :
  let vm1 := flag_pages 1 VirtualMemory_new in
  allocate 1 VirtualMemory_new = Ret 0 vm1 /\
  allocated vm1 0 /\
  write MEMORY_SIZE [0] vm1 = Undefined /\
  run_ops [OpAllocate 1; OpWrite MEMORY_SIZE [0]] VirtualMemory_new = None.
Proof.
  intros vm1. split; [by_compute|]. split; [vm_compute; reflexivity|].
  split; by_compute.
Qed.

Lemma VirtualMemory_full_wf : vm_wf VirtualMemory_full.
Proof.
  apply flag_pages_wf; [apply VirtualMemory_new_wf|].
  unfold VirtualMemory_new, NUM_PAGES. cbn [next_free_page]. lia.
Qed.

(** C10. [allocate(0)] succeeds in every state of the address space, full or
    not: it returns [next_free_page * PAGE_SIZE] and leaves the state as it
    was (no page flagged, cursor unchanged), so that two calls in a row
    return the same address. *)
Theorem allocate_zero vm :
  vm_wf vm ->
  allocate 0 vm = Ret (next_free_page vm * PAGE_SIZE) vm /\
  (a1 <- allocate 0 ;; a2 <- allocate 0 ;; ret (a1, a2)) vm =
    Ret (next_free_page vm * PAGE_SIZE, next_free_page vm * PAGE_SIZE) vm.
Proof.
  intros Hwf.
  assert (E : allocate 0 vm = Ret (next_free_page vm * PAGE_SIZE) vm).
  { destruct Hwf as [_ _ Hc]. unfold allocate, bind, get, ret.
    replace (Z.to_nat (pages_needed 0)) with O by (vm_compute; reflexivity).
    cbn [allocate_loop]. unfold ret. f_equal.
    apply wrap64_small. unfold NUM_PAGES, PAGE_SIZE in *. lia. }
  split; [exact E|]. unfold bind. rewrite E. rewrite E. reflexivity.
Qed.

Lemma allocate_zero_witness :
  allocate 0 VirtualMemory_full = Ret MEMORY_SIZE VirtualMemory_full /\
  (a1 <- allocate 0 ;; a2 <- allocate 0 ;; ret (a1, a2)) VirtualMemory_full =
    Ret (MEMORY_SIZE, MEMORY_SIZE) VirtualMemory_full.
Proof.
  apply (allocate_zero VirtualMemory_full).
  split; vm_compute; [reflexivity|reflexivity|split; discriminate].
Defined.

(** C9. When [allocate] throws, the error is OutOfMemory, the cursor stands
    at [NUM_PAGES] and every page from the old cursor up to [NUM_PAGES - 1]
    is flagged; the bytes are untouched.  The call has changed the address
    space exactly when the cursor was below [NUM_PAGES] before it. *)
Theorem allocate_out_of_memory_state size vm e vm' :
  vm_wf vm ->
  allocate size vm = Throw e vm' ->
  e = OutOfMemory /\
  NUM_PAGES < next_free_page vm + pages_needed size /\
  next_free_page vm' = NUM_PAGES /\
  (forall p, next_free_page vm <= p < NUM_PAGES ->
             page_table vm' !! Z.to_nat p = Some true) /\
  memory vm' = memory vm /\
  (next_free_page vm < NUM_PAGES -> vm' <> vm) /\
  (next_free_page vm = NUM_PAGES -> vm' = vm).
Proof.
  intros Hwf Hthrow.
  destruct (allocate_cases size vm Hwf) as [[_ E]|[Hn E]];
    rewrite E in Hthrow; simplify_eq.
  destruct Hwf as [_ Hlen Hc].
  split; [done|]. split; [done|]. split; [|split; [|split; [|split]]].
  - rewrite flag_pages_cursor. lia.
  - intros p Hp. apply flag_pages_flagged; lia.
  - apply flag_pages_memory.
  - intros Hlt Heq. apply (f_equal next_free_page) in Heq.
    rewrite flag_pages_cursor in Heq. lia.
  - intros ->. by rewrite Z.sub_diag.
Qed.

Lemma allocate_out_of_memory_state_witness :
  allocate (MEMORY_SIZE + 1) VirtualMemory_new =
    Throw OutOfMemory VirtualMemory_full /\
  next_free_page VirtualMemory_full = NUM_PAGES /\
  page_table VirtualMemory_full !! Z.to_nat 0 = Some true /\
  page_table VirtualMemory_full !! Z.to_nat 255 = Some true /\
  VirtualMemory_full <> VirtualMemory_new.
Proof.
  assert (E : allocate (MEMORY_SIZE + 1) VirtualMemory_new =
              Throw OutOfMemory VirtualMemory_full) by by_compute.
  assert (Hwf : vm_wf VirtualMemory_new).
  { split; vm_compute; [reflexivity|reflexivity|split; discriminate]. }
  destruct (allocate_out_of_memory_state _ _ _ _ Hwf E)
    as (_ & _ & Hc & Hp & _ & Hne & _).
  assert (H0 : next_free_page VirtualMemory_new <= 0 < NUM_PAGES)
    by (vm_compute; split; [discriminate|reflexivity]).
  assert (H255 : next_free_page VirtualMemory_new <= 255 < NUM_PAGES)
    by (vm_compute; split; [discriminate|reflexivity]).
  assert (Hlt : next_free_page VirtualMemory_new < NUM_PAGES)
    by (vm_compute; reflexivity).
  exact (conj E (conj Hc (conj (Hp 0 H0) (conj (Hp 255 H255) (Hne Hlt))))).
Defined.

(** With the cursor at [NUM_PAGES] a failing [allocate] is not observable:
    the state after the exception is the state before the call. *)
Lemma allocate_out_of_memory_unchanged :
  allocate MEMORY_SIZE VirtualMemory_new = Ret 0 VirtualMemory_full /\
  allocate 1 VirtualMemory_full = Throw OutOfMemory VirtualMemory_full.
Proof. split; by_compute. Qed.

(** ** Runs of [allocate] *)

Lemma pages_needed_ceil size :
  0 <= size <= 2 ^ 64 - PAGE_SIZE -> pages_needed size = ceil_div size PAGE_SIZE.
Proof.
  intros Hs. unfold pages_needed, ceil_div, PAGE_SIZE in *.
  rewrite wrap64_small by lia.
  destruct (Z.eqb_spec (size mod 256) 0); Z.div_mod_to_equations; lia.
Qed.

Lemma ceil_div_pos size : 0 < size -> 0 < ceil_div size PAGE_SIZE.
Proof.
  intros Hs. unfold ceil_div, PAGE_SIZE.
  destruct (Z.eqb_spec (size mod 256) 0); Z.div_mod_to_equations; lia.
Qed.

Lemma allocate_all_spec sizes vm addrs vm' :
  vm_wf vm ->
  Forall (fun s => 0 <= s <= 2 ^ 64 - PAGE_SIZE) sizes ->
  allocate_all sizes vm = Ret addrs vm' ->
  next_free_page vm' = next_free_page vm + sum_Z (map (fun s => ceil_div s PAGE_SIZE) sizes) /\
  Forall (fun a => a mod PAGE_SIZE = 0 /\ next_free_page vm * PAGE_SIZE <= a) addrs /\
  StronglySorted Z.le addrs /\
  (Forall (fun s => 0 < s) sizes -> StronglySorted Z.lt addrs).
Proof.
  revert vm addrs. induction sizes as [|s rest IH]; intros vm addrs Hwf Hsz Hrun.
  - simpl in Hrun. unfold ret in Hrun. simplify_eq. simpl.
    repeat split; [lia|constructor..].
  - apply Forall_cons in Hsz as [Hs Hrest].
    cbn [allocate_all] in Hrun. unfold bind in Hrun.
    pose proof (allocate_wf s vm) as Hwf1.
    destruct (allocate_cases s vm Hwf) as [[Hn E]|[Hn E]];
      rewrite E in Hrun, Hwf1; [|done].
    specialize (Hwf1 _ Hwf eq_refl).
    set (vm1 := flag_pages (Z.to_nat (pages_needed s)) vm) in *.
    destruct (allocate_all rest vm1) as [addrs1 vm2| |] eqn:Hrec; [|done..].
    unfold ret in Hrun. simplify_eq.
    destruct (IH vm1 addrs1 Hwf1 Hrest Hrec) as (Hc & Ha & Hle & Hlt).
    pose proof (pages_needed_range s) as Hp0.
    assert (Hc1 : next_free_page vm1 = next_free_page vm + ceil_div s PAGE_SIZE).
    { unfold vm1. rewrite flag_pages_cursor, <- pages_needed_ceil by done. lia. }
    split; [|split; [|split]].
    + cbn [map sum_Z foldr]. fold (sum_Z (map (fun s => ceil_div s PAGE_SIZE) rest)).
      lia.
    + constructor.
      * split; [|lia]. apply Z.mod_mul. done.
      * eapply Forall_impl; [exact Ha|]. intros a [Hm Hge]. split; [done|].
        rewrite pages_needed_ceil in Hp0 by done. unfold PAGE_SIZE in *. nia.
    + constructor; [done|].
      eapply Forall_impl; [exact Ha|]. intros a [_ Hge].
      rewrite pages_needed_ceil in Hp0 by done. unfold PAGE_SIZE in *. nia.
    + intros Hpos. apply Forall_cons in Hpos as [Hs0 Hpos].
      constructor; [auto|].
      eapply Forall_impl; [exact Ha|]. intros a [_ Hge].
      pose proof (ceil_div_pos s Hs0). unfold PAGE_SIZE in *. nia.
Qed.

(** C3. In a run of successful calls [allocate(s1), allocate(s2), ...] with
    sizes up to [2^64 - PAGE_SIZE], every returned address is a multiple of
    [PAGE_SIZE], the addresses never decrease, they increase strictly when
    every size is positive, and the cursor advances by the sum of the
    [ceil(si / PAGE_SIZE)]. *)
Theorem allocate_sequence sizes vm addrs vm' :
  vm_wf vm ->
  Forall (fun s => 0 <= s <= 2 ^ 64 - PAGE_SIZE) sizes ->
  allocate_all sizes vm = Ret addrs vm' ->
  Forall (fun a => a mod PAGE_SIZE = 0) addrs /\
  StronglySorted Z.le addrs /\
  (Forall (fun s => 0 < s) sizes -> StronglySorted Z.lt addrs) /\
  next_free_page vm' - next_free_page vm =
    sum_Z (map (fun s => ceil_div s PAGE_SIZE) sizes).
Proof.
  intros Hwf Hsz Hrun.
  destruct (allocate_all_spec sizes vm addrs vm' Hwf Hsz Hrun) as (Hc & Ha & Hle & Hlt).
  split; [|split; [done|split; [done|lia]]].
  eapply Forall_impl; [exact Ha|]. by intros a [Hm _].
Qed.

Lemma allocate_sequence_witness :
  let sizes := [1; 256; 257; 0; 1000] in
  let addrs := [0; 256; 512; 1024; 1024] in
  let vm' := flag_pages 8 VirtualMemory_new in
  allocate_all sizes VirtualMemory_new = Ret addrs vm' /\
  Forall (fun a => a mod PAGE_SIZE = 0) addrs /\
  StronglySorted Z.le addrs /\
  next_free_page vm' - next_free_page VirtualMemory_new = 8.
Proof.
  intros sizes addrs vm'.
  assert (Hrun : allocate_all sizes VirtualMemory_new = Ret addrs vm') by by_compute.
  assert (Hwf : vm_wf VirtualMemory_new).
  { split; vm_compute; [reflexivity|reflexivity|split; discriminate]. }
  assert (Hsz : Forall (fun s => 0 <= s <= 2 ^ 64 - PAGE_SIZE) sizes).
  { repeat constructor; vm_compute; discriminate. }
  destruct (allocate_sequence sizes VirtualMemory_new addrs vm' Hwf Hsz Hrun)
    as (Ha & Hle & _ & Hc).
  exact (conj Hrun (conj Ha (conj Hle Hc))).
Defined.

(** The addresses of a run do not increase strictly when a size is zero, and
    a size above [2^64 - PAGE_SIZE] consumes fewer pages than its ceiling. *)
Lemma allocate_sequence_counterexample :
  (allocate_all [0; 0] VirtualMemory_new = Ret [0; 0] VirtualMemory_new /\
   ~ StronglySorted Z.lt [0; 0]) /\
  (allocate_all [2 ^ 64 - 1] VirtualMemory_new = Ret [0] VirtualMemory_new /\
   next_free_page VirtualMemory_new - next_free_page VirtualMemory_new <>
     sum_Z (map (fun s => ceil_div s PAGE_SIZE) [2 ^ 64 - 1])).
Proof.
  split; split; [by_compute| |by_compute|vm_compute; discriminate].
  intros H. apply StronglySorted_inv in H as [_ H].
  apply Forall_cons in H as [H _]. lia.
Qed.

(** ** [write] and [read] *)

Lemma write_loop_wrap address i data vm :
  write_loop (wrap64 address) i data vm = write_loop address i data vm.
Proof.
  revert i vm. induction data as [|b rest IH]; intros i vm; [done|].
  cbn [write_loop]. unfold bind, get, modify. rewrite wrap64_plus_l.
  destruct (page_table vm !! _) as [[]|]; [|done..].
  destruct (decide _); [|done]. apply IH.
Qed.

Lemma read_loop_wrap address i n vm :
  read_loop (wrap64 address) i n vm = read_loop address i n vm.
Proof.
  revert i. induction n as [|n IH]; intros i; [done|].
  cbn [read_loop]. unfold bind, get. rewrite wrap64_plus_l.
  destruct (page_table vm !! _) as [[]|]; [|done..].
  destruct (memory vm !! _); [|done]. by rewrite IH.
Qed.

Lemma set_memory_wf a b vm : vm_wf vm -> vm_wf (set_memory a b vm).
Proof. intros [Hm Hp Hc]. split; simpl; [by rewrite length_insert|done..]. Qed.

Lemma with_memory_set a b vm mem :
  with_memory mem (set_memory a b vm) = with_memory mem vm.
Proof. reflexivity. Qed.

Lemma with_memory_id vm : with_memory (memory vm) vm = vm.
Proof. by destruct vm. Qed.

(** A page index below [NUM_PAGES] is inside the table. *)
Lemma page_lookup vm x :
  vm_wf vm -> 0 <= x < MEMORY_SIZE ->
  exists f, page_table vm !! Z.to_nat (x / PAGE_SIZE) = Some f.
Proof.
  intros [_ Hp _] Hx. apply lookup_lt_is_Some_2.
  unfold MEMORY_SIZE, NUM_PAGES, PAGE_SIZE in *.
  assert (0 <= x / 256 < 256) by (Z.div_mod_to_equations; lia). lia.
Qed.

(** A page index from [NUM_PAGES] on is past the end of the table. *)
Lemma page_lookup_beyond vm x :
  vm_wf vm -> MEMORY_SIZE <= x ->
  page_table vm !! Z.to_nat (x / PAGE_SIZE) = None.
Proof.
  intros [_ Hp _] Hx. apply lookup_ge_None_2.
  unfold MEMORY_SIZE, NUM_PAGES, PAGE_SIZE in *.
  assert (256 <= x / 256) by (Z.div_mod_to_equations; lia). lia.
Qed.

Lemma store_bytes_length a data mem :
  length (store_bytes a data mem) = length mem.
Proof.
  revert a mem. induction data as [|b rest IH]; intros a mem; [done|].
  simpl. by rewrite IH, length_insert.
Qed.

Lemma store_bytes_lookup a data mem (k : nat) :
  (a + length data <= length mem)%nat ->
  store_bytes a data mem !! k =
    if decide (a <= k < a + length data)%nat then data !! (k - a)%nat else mem !! k.
Proof.
  revert a mem. induction data as [|b rest IH]; intros a mem Hlen.
  - simpl. case_decide; [lia|done].
  - cbn [store_bytes length] in *. rewrite IH by (rewrite length_insert; lia).
    repeat case_decide; try lia.
    + replace (k - a)%nat with (S (k - S a)) by lia. done.
    + assert (k = a) as -> by lia. rewrite Nat.sub_diag. simpl.
      apply list_lookup_insert_eq. lia.
    + apply list_lookup_insert_ne. lia.
Qed.

Lemma store_bytes_read_back a data mem :
  (a + length data <= length mem)%nat ->
  take (length data) (drop a (store_bytes a data mem)) = data.
Proof.
  intros Hlen. apply list_eq. intros k.
  destruct (decide (k < length data)%nat) as [Hk|Hk].
  - rewrite lookup_take_lt, lookup_drop, store_bytes_lookup by done.
    case_decide; [|lia]. f_equal. lia.
  - rewrite lookup_take_ge by lia. symmetry. apply lookup_ge_None_2. lia.
Qed.

(** What [write] does to a range inside the address space: it stores the
    bytes up to the first one whose page is not flagged, and faults there. *)
Lemma write_loop_inside a i data vm :
  vm_wf vm -> 0 <= a -> 0 <= i ->
  a + i + Z.of_nat (length data) <= MEMORY_SIZE ->
  ((forall j, 0 <= j < Z.of_nat (length data) -> allocated vm (a + i + j)) /\
   write_loop a i data vm =
     Ret tt (with_memory (store_bytes (Z.to_nat (a + i)) data (memory vm)) vm)) \/
  (exists j, 0 <= j < Z.of_nat (length data) /\
     (forall k, 0 <= k < j -> allocated vm (a + i + k)) /\
     ~ allocated vm (a + i + j) /\
     write_loop a i data vm =
       Throw SegFaultWrite
         (with_memory (store_bytes (Z.to_nat (a + i)) (take (Z.to_nat j) data)
                                   (memory vm)) vm)).
Proof.
  revert i vm. induction data as [|b rest IH]; intros i vm Hwf Ha Hi Hend.
  - left. split; [simpl; lia|]. simpl. by rewrite with_memory_id.
  - cbn [length] in Hend. cbn [write_loop]. unfold bind, get, modify.
    assert (Hin : 0 <= a + i < MEMORY_SIZE) by lia.
    rewrite wrap64_small by (unfold MEMORY_SIZE, PAGE_SIZE, NUM_PAGES in *; lia).
    destruct (page_lookup vm (a + i) Hwf Hin) as [f Hf]. rewrite Hf.
    destruct f.
    + destruct (decide _) as [_|Hout];
        [|destruct Hwf as [Hm _ _]; exfalso; apply Hout; lia].
      set (vm1 := set_memory (Z.to_nat (a + i)) b vm).
      destruct (IH (i + 1) vm1) as [[Hall E]|(j & Hj & Hbefore & Hbad & E)];
        [by apply set_memory_wf|lia..| | ];
        replace (a + (i + 1)) with (a + i + 1) in * by lia.
      * left. split.
        -- intros j Hj. destruct (decide (j = 0)) as [->|Hne].
           ++ by rewrite Z.add_0_r.
           ++ replace (a + i + j) with (a + i + 1 + (j - 1)) by lia.
              apply (Hall (j - 1)). cbn [length] in Hj. lia.
        -- rewrite E. f_equal. unfold vm1. rewrite with_memory_set.
           replace (Z.to_nat (a + i + 1)) with (S (Z.to_nat (a + i))) by lia.
           reflexivity.
      * right. exists (j + 1).
        split; [cbn [length]; lia|]. split; [|split].
        -- intros k Hk. destruct (decide (k = 0)) as [->|Hne].
           ++ by rewrite Z.add_0_r.
           ++ replace (a + i + k) with (a + i + 1 + (k - 1)) by lia.
              apply (Hbefore (k - 1)). lia.
        -- replace (a + i + (j + 1)) with (a + i + 1 + j) by lia. exact Hbad.
        -- rewrite E. f_equal. unfold vm1. rewrite with_memory_set.
           replace (Z.to_nat (j + 1)) with (S (Z.to_nat j)) by lia.
           replace (Z.to_nat (a + i + 1)) with (S (Z.to_nat (a + i))) by lia.
           reflexivity.
    + right. exists 0. split; [cbn [length]; lia|]. split; [intros; lia|].
      split; [|change (Z.to_nat 0) with O; cbn [take store_bytes];
               by rewrite with_memory_id].
      unfold allocated. rewrite Z.add_0_r, Hf. done.
Qed.

(** An access at or beyond [MEMORY_SIZE] indexes [page_table] past its end. *)
Lemma write_loop_beyond address i b rest vm :
  vm_wf vm -> MEMORY_SIZE <= wrap64 (address + i) ->
  write_loop address i (b :: rest) vm = Undefined.
Proof.
  intros Hwf Hge. cbn [write_loop]. unfold bind, get.
  by rewrite page_lookup_beyond.
Qed.

Lemma read_loop_beyond address i n vm :
  vm_wf vm -> MEMORY_SIZE <= wrap64 (address + i) ->
  read_loop address i (S n) vm = Undefined.
Proof.
  intros Hwf Hge. cbn [read_loop]. unfold bind, get.
  by rewrite page_lookup_beyond.
Qed.

(** A [write] that returns has stayed inside the address space. *)
Lemma write_loop_Ret_inside address i data vm vm' :
  vm_wf vm -> data <> [] ->
  write_loop address i data vm = Ret tt vm' ->
  wrap64 (address + i) + Z.of_nat (length data) <= MEMORY_SIZE.
Proof.
  revert i vm. induction data as [|b rest IH]; intros i vm Hwf Hne Hret; [done|].
  destruct (Z_lt_le_dec (wrap64 (address + i)) MEMORY_SIZE) as [Hlt|Hge];
    [|by rewrite write_loop_beyond in Hret].
  destruct rest as [|b' rest]; [cbn [length]; lia|].
  cbn [write_loop] in Hret. unfold bind, get, modify in Hret.
  destruct (page_table vm !! _) as [[]|]; [|done..].
  destruct (decide _); [|done].
  apply IH in Hret; [|by apply set_memory_wf|done].
  replace (wrap64 (address + (i + 1))) with (wrap64 (address + i) + 1) in Hret.
  - cbn [length] in *. lia.
  - rewrite Z.add_assoc, <- (wrap64_plus_l (address + i)).
    symmetry. apply wrap64_small.
    pose proof (wrap64_range (address + i)).
    unfold MEMORY_SIZE, PAGE_SIZE, NUM_PAGES in *. lia.
Qed.

Lemma write_Ret_inv address data vm vm' :
  vm_wf vm -> data <> [] ->
  write address data vm = Ret tt vm' ->
  wrap64 address + Z.of_nat (length data) <= MEMORY_SIZE /\
  (forall j, 0 <= j < Z.of_nat (length data) -> allocated vm (wrap64 address + j)) /\
  vm' = with_memory (store_bytes (Z.to_nat (wrap64 address)) data (memory vm)) vm.
Proof.
  intros Hwf Hne Hret. unfold write in *.
  pose proof (write_loop_Ret_inside _ _ _ _ _ Hwf Hne Hret) as Hin.
  rewrite Z.add_0_r in Hin. split; [done|].
  rewrite <- write_loop_wrap in Hret.
  pose proof (wrap64_range address) as Hr.
  destruct (write_loop_inside (wrap64 address) 0 data vm) as [[Hall E]|(j & _ & _ & _ & E)];
    [done|lia|lia|lia| |congruence].
  rewrite Z.add_0_r in *. split; [done|congruence].
Qed.

Lemma read_loop_inside a i n vm :
  vm_wf vm -> 0 <= a -> 0 <= i ->
  a + i + Z.of_nat n <= MEMORY_SIZE ->
  (forall j, 0 <= j < Z.of_nat n -> allocated vm (a + i + j)) ->
  read_loop a i n vm = Ret (take n (drop (Z.to_nat (a + i)) (memory vm))) vm.
Proof.
  intros Hwf Ha. revert i. induction n as [|n IH]; intros i Hi Hend Hall; [done|].
  cbn [read_loop]. unfold bind, get.
  rewrite wrap64_small by (unfold MEMORY_SIZE, PAGE_SIZE, NUM_PAGES in *; lia).
  pose proof (Hall 0) as H0. unfold allocated in H0.
  rewrite Z.add_0_r in H0. rewrite H0 by lia.
  destruct (lookup_lt_is_Some_2 (memory vm) (Z.to_nat (a + i))) as [b Hb];
    [destruct Hwf as [Hm _ _]; lia|].
  rewrite Hb, IH; [|lia|lia|].
  - unfold ret. f_equal.
    replace (Z.to_nat (a + (i + 1))) with (S (Z.to_nat (a + i))) by lia.
    erewrite (drop_S _ _ (Z.to_nat (a + i))) by done. reflexivity.
  - intros j Hj. replace (a + (i + 1) + j) with (a + i + (j + 1)) by lia.
    apply Hall. lia.
Qed.

Lemma read_inside a n vm :
  vm_wf vm -> 0 <= a -> 0 <= n ->
  a + n <= MEMORY_SIZE ->
  (forall j, 0 <= j < n -> allocated vm (a + j)) ->
  read a n vm = Ret (take (Z.to_nat n) (drop (Z.to_nat a) (memory vm))) vm.
Proof.
  intros Hwf Ha Hn Hend Hall. unfold read.
  rewrite read_loop_inside; [by rewrite Z.add_0_r|done|done|lia|lia|].
  intros j Hj. rewrite Z.add_0_r. apply Hall. lia.
Qed.

(** Write/read round trip: what a returning [write] stored is what [read]
    returns from the same address. *)
Lemma write_read address data vm vm' :
  vm_wf vm ->
  write address data vm = Ret tt vm' ->
  read address (Z.of_nat (length data)) vm' = Ret data vm'.
Proof.
  intros Hwf Hret. destruct data as [|b rest].
  - unfold write in Hret. simpl in Hret. unfold ret in Hret. by simplify_eq.
  - apply write_Ret_inv in Hret as (Hin & Hall & ->); [|done..].
    set (data := b :: rest) in *.
    pose proof (wrap64_range address) as Hr.
    unfold read. rewrite <- read_loop_wrap. fold (read (wrap64 address) (Z.of_nat (length data))
      (with_memory (store_bytes (Z.to_nat (wrap64 address)) data (memory vm)) vm)).
    rewrite read_inside; [|
      destruct Hwf; split; cbn [with_memory memory page_table next_free_page];
        [by rewrite store_bytes_length|done..]|lia|lia|done|done].
    f_equal. cbn [with_memory memory]. rewrite Nat2Z.id.
    apply store_bytes_read_back. destruct Hwf as [Hm _ _]. lia.
Qed.

(** C2. At an address at or beyond [PAGE_SIZE * NUM_PAGES] neither [write]
    nor [read] raises a segmentation fault: the page lookup indexes
    [page_table] past its end, whatever the allocation state. *)
Theorem access_beyond_memory_undefined :
  write MEMORY_SIZE [0] VirtualMemory_new = Undefined /\
  read MEMORY_SIZE 1 VirtualMemory_new = Undefined /\
  write MEMORY_SIZE [0] VirtualMemory_full = Undefined /\
  read MEMORY_SIZE 1 VirtualMemory_full = Undefined.
Proof. repeat split; by_compute. Qed.

(** * Properties of libraries *)

(** ** The address space of a world stays well-formed *)

Lemma allocate_keeps_wf size : keeps_wf (allocate size).
Proof. intros v o Hwf Ho. by eapply allocate_wf. Qed.

Lemma write_keeps_wf address data : keeps_wf (write address data).
Proof. intros v o Hwf Ho. by apply (run_op_wf (OpWrite address data) v). Qed.

Lemma on_vm_wf {A} (m : Exec VirtualMemory A) w w' :
  keeps_wf m -> vm_wf (vm w) -> final_state (on_vm m w) = Some w' ->
  vm_wf (vm w').
Proof.
  intros Hm Hwf. unfold on_vm, zoom. specialize (Hm (vm w)).
  destruct (m (vm w)) as [a v'|e v'|]; cbn [final_state]; intros [= <-];
    cbn [set_vm vm]; by apply Hm.
Qed.

Lemma Library_new_wf name w w' :
  vm_wf (vm w) -> final_state (Library_new name w) = Some w' -> vm_wf (vm w').
Proof.
  intros Hwf. unfold Library_new, bind, get, modify, ret.
  pose proof (on_vm_wf (allocate PAGE_SIZE) w) as H.
  destruct (on_vm (allocate PAGE_SIZE) w) as [a w1|e w1|];
    cbn [final_state]; intros [= <-]; cbn [push_lib vm];
    by apply H; [apply allocate_keeps_wf|..].
Qed.

Lemma Executable_new_wf name w w' :
  vm_wf (vm w) -> final_state (Executable_new name w) = Some w' -> vm_wf (vm w').
Proof.
  intros Hwf. unfold Executable_new, bind, get, modify, ret.
  pose proof (on_vm_wf (allocate PAGE_SIZE) w) as H.
  destruct (on_vm (allocate PAGE_SIZE) w) as [a w1|e w1|];
    cbn [final_state]; intros [= <-]; cbn [push_exe vm];
    by apply H; [apply allocate_keeps_wf|..].
Qed.

Lemma addSymbol_wf lib n off w w' :
  vm_wf (vm w) -> final_state (addSymbol lib n off w) = Some w' -> vm_wf (vm w').
Proof.
  intros Hwf. unfold addSymbol, bind, deref_lib, modify.
  destruct (libs w !! lib) as [l|]; [|done].
  apply on_vm_wf; [apply write_keeps_wf|done].
Qed.

Lemma le_bytes_length n v : length (le_bytes n v) = n.
Proof. revert v. induction n as [|n IH]; intros v; simpl; [done|]. by rewrite IH. Qed.

Lemma addSymbol_unfold lib n off w l :
  libs w !! lib = Some l ->
  addSymbol lib n off w =
    on_vm (write (wrap64 (lib_base_address l + off)) (le_bytes 8 dummy_func))
          (set_lib lib (with_symbol n (wrap64 (lib_base_address l + off)) l) w).
Proof.
  intros Hl. unfold addSymbol, bind, deref_lib, modify. by rewrite Hl.
Qed.

(** C6. When [addSymbol(n, off)] returns, reading 8 bytes at [base + off]
    (a [uint64_t] sum) gives the bytes of the marker [0xDEADBEEF], and
    [findSymbol(n)] gives a symbol whose address is [base + off]. *)
Theorem addSymbol_placeholder lib n off w w' :
  vm_wf (vm w) ->
  addSymbol lib n off w = Ret tt w' ->
  exists l l',
    libs w !! lib = Some l /\ libs w' !! lib = Some l' /\
    lib_base_address l' = lib_base_address l /\
    on_vm (read (wrap64 (lib_base_address l + off)) 8) w' =
      Ret (le_bytes 8 dummy_func) w' /\
    findSymbol l' n =
      Some {| sym_name := n; sym_address := wrap64 (lib_base_address l + off) |}.
Proof.
  intros Hwf Hret.
  destruct (libs w !! lib) as [l|] eqn:Hl;
    [|unfold addSymbol, bind, deref_lib in Hret; by rewrite Hl in Hret].
  rewrite (addSymbol_unfold _ _ _ _ _ Hl) in Hret.
  set (address := wrap64 (lib_base_address l + off)) in *.
  unfold on_vm, zoom in Hret. cbn [vm set_lib] in Hret.
  destruct (write address (le_bytes 8 dummy_func) (vm w)) as [[] v'| |] eqn:Hw;
    [|done..].
  simplify_eq. exists l, (with_symbol n address l).
  split; [done|]. split; [|split; [done|split]].
  - cbn [set_vm set_lib libs]. apply list_lookup_insert_eq.
    by eapply lookup_lt_Some.
  - apply write_read in Hw; [|done]. rewrite le_bytes_length in Hw.
    unfold on_vm, zoom. cbn [set_vm vm]. change (Z.of_nat 8) with 8 in Hw.
    fold address. rewrite Hw. reflexivity.
  - unfold findSymbol, with_symbol. cbn [symbols]. apply lookup_insert_eq.
Qed.

Lemma addSymbol_placeholder_witness :
  let w := state_after (Library_new "libmath.so") World_new in
  let w' := state_after (addSymbol 0%nat "sqrt" 0x10) w in
  exists l l',
    libs w !! 0%nat = Some l /\ libs w' !! 0%nat = Some l' /\
    lib_base_address l' = lib_base_address l /\
    on_vm (read (wrap64 (lib_base_address l + 0x10)) 8) w' =
      Ret (le_bytes 8 dummy_func) w' /\
    findSymbol l' "sqrt" =
      Some {| sym_name := "sqrt";
              sym_address := wrap64 (lib_base_address l + 0x10) |}.
Proof.
  intros w w'.
  assert (Hwf : vm_wf (vm w)).
  { split; vm_compute; [reflexivity|reflexivity|split; discriminate]. }
  assert (Hret : addSymbol 0%nat "sqrt" 0x10 w = Ret tt w') by by_compute.
  exact (addSymbol_placeholder 0%nat "sqrt" 0x10 w w' Hwf Hret).
Defined.

(** C4. When the 8 bytes at [base + offset] lie inside the address space,
    [addSymbol] throws a segmentation fault exactly when one of them is on a
    page that is not flagged allocated, and returns when all their pages are
    flagged; which library or executable a page was allocated to plays no
    part. *)
Theorem addSymbol_fault_iff_unallocated lib l n off w :
  vm_wf (vm w) ->
  libs w !! lib = Some l ->
  wrap64 (lib_base_address l + off) + 8 <= MEMORY_SIZE ->
  ((forall j, 0 <= j < 8 -> allocated (vm w) (wrap64 (lib_base_address l + off) + j)) /\
   exists w', addSymbol lib n off w = Ret tt w') \/
  ((exists j, 0 <= j < 8 /\ ~ allocated (vm w) (wrap64 (lib_base_address l + off) + j)) /\
   exists w', addSymbol lib n off w = Throw SegFaultWrite w').
Proof.
  intros Hwf Hl Hin. rewrite (addSymbol_unfold _ _ _ _ _ Hl).
  set (address := wrap64 (lib_base_address l + off)) in *.
  pose proof (wrap64_range (lib_base_address l + off)) as Hr. fold address in Hr.
  unfold on_vm, zoom. cbn [vm set_lib]. unfold write.
  destruct (write_loop_inside address 0 (le_bytes 8 dummy_func) (vm w))
    as [[Hall E]|(j & Hj & _ & Hbad & E)];
    [done|lia|lia|rewrite le_bytes_length; lia|..];
    rewrite le_bytes_length in *; rewrite Z.add_0_r in *; rewrite E.
  - left. split; [|by eexists]. intros j Hj. apply Hall. lia.
  - right. split; [|by eexists]. exists j. split; [lia|done].
Qed.

Lemma addSymbol_fault_iff_unallocated_witness :
  let w := state_after (Library_new "libmath.so") World_new in
  (exists j, 0 <= j < 8 /\ ~ allocated (vm w) (wrap64 (0 + 0x100) + j)) /\
  exists w', addSymbol 0%nat "sqrt" 0x100 w = Throw SegFaultWrite w'.
Proof.
  intros w.
  assert (Hwf : vm_wf (vm w)).
  { split; vm_compute; [reflexivity|reflexivity|split; discriminate]. }
  assert (Hl : libs w !! 0%nat =
               Some {| lib_name := "libmath.so"; lib_base_address := 0;
                       symbols := ∅ |}) by by_compute.
  assert (Hin : wrap64 (0 + 0x100) + 8 <= MEMORY_SIZE) by (vm_compute; discriminate).
  destruct (addSymbol_fault_iff_unallocated 0%nat _ "sqrt" 0x100 w Hwf Hl Hin)
    as [[Hall _]|Hfault]; [|exact Hfault].
  exfalso. assert (H0 : 0 <= 0 < 8) by lia.
  specialize (Hall 0 H0). vm_compute in Hall. discriminate.
Defined.

(** An offset that leaves the library's own page for the page of another
    library: [addSymbol] returns. *)
Lemma addSymbol_into_neighbour_page :
  returned (two_libraries World_new) = Some (0%nat, 1%nat) /\
  let w := state_after two_libraries World_new in
  lib_base_address <$> libs w !! 0%nat = Some 0 /\
  lib_base_address <$> libs w !! 1%nat = Some PAGE_SIZE /\
  returned (addSymbol 0%nat "f" 0x100 w) = Some tt.
Proof. repeat split; vm_compute; reflexivity. Qed.

(** The demonstration in [main] stops at its first [addSymbol]: the page
    after the one of ["libmath.so"] is not allocated yet. *)
Example main_first_addSymbol :
  thrown ((libMath <- Library_new "libmath.so" ;;
           addSymbol libMath "sqrt" 0x100) World_new) = Some SegFaultWrite.
Proof. vm_compute. reflexivity. Qed.

(** * Properties of the linker *)

Lemma set_world_id s : set_world (world s) s = s.
Proof. by destruct s. Qed.

Lemma set_vm_id w : set_vm (vm w) w = w.
Proof. by destruct w. Qed.

Lemma in_world_deref_lib r s l :
  libs (world s) !! r = Some l -> in_world (deref_lib r) s = Ret l s.
Proof.
  intros Hl. unfold in_world, zoom, deref_lib. rewrite Hl.
  by rewrite set_world_id.
Qed.

Lemma in_world_deref_exe r s e :
  exes (world s) !! r = Some e -> in_world (deref_exe r) s = Ret e s.
Proof.
  intros He. unfold in_world, zoom, deref_exe. rewrite He.
  by rewrite set_world_id.
Qed.

(** ** The registry *)

Lemma um_replace_keys k v (l : registry) : (um_replace k v l).*1 = l.*1.
Proof.
  induction l as [|[k' v'] rest IH]; [done|].
  cbn [um_replace]. case_decide; [done|]. rewrite !fmap_cons. by rewrite IH.
Qed.

Lemma um_find_replace_eq k v old (l : registry) :
  um_find k l = Some old -> um_find k (um_replace k v l) = Some v.
Proof.
  induction l as [|[k' v'] rest IH]; [done|].
  simpl. intros Hf. case_decide; simpl.
  - by rewrite decide_True.
  - rewrite decide_False by done. auto.
Qed.

Lemma um_find_replace_ne k k' v (l : registry) :
  k' <> k -> um_find k' (um_replace k v l) = um_find k' l.
Proof.
  intros Hne. induction l as [|[k0 v0] rest IH]; [done|].
  simpl. case_decide; simpl.
  - subst. by rewrite !decide_False by done.
  - case_decide; [done|]. exact IH.
Qed.

Lemma um_replace_same k v (l : registry) :
  um_find k l = Some v -> um_replace k v l = l.
Proof.
  induction l as [|[k' v'] rest IH]; [done|].
  simpl. intros Hf. case_decide; [by simplify_eq|]. by rewrite IH.
Qed.

(** The registry is a map whatever the order of iteration: a key has one
    entry, and an assignment is found again. *)
Lemma um_find_None k (l : registry) : um_find k l = None <-> k ∉ l.*1.
Proof.
  induction l as [|[k' v'] rest IH];
    [split; [intros _ H; by apply elem_of_nil in H|done]|].
  cbn [um_find]. rewrite fmap_cons, not_elem_of_cons. cbn [fst].
  case_decide as Hk.
  - split; [done|]. intros [Hne _]. by subst.
  - rewrite IH. split; [intros ?; split; [by intros ->|done]|by intros [_ ?]].
Qed.

Lemma um_find_elem k v (l : registry) :
  NoDup l.*1 -> (k, v) ∈ l -> um_find k l = Some v.
Proof.
  induction l as [|[k' v'] rest IH];
    [intros _ H; by apply elem_of_nil in H|].
  rewrite fmap_cons, NoDup_cons, elem_of_cons. cbn [fst um_find].
  intros [Hk' Hnd] [Heq|Hin].
  - simplify_eq. by rewrite decide_True.
  - case_decide; [|by apply IH]. subst. exfalso. apply Hk'.
    apply list_elem_of_fmap. by exists (k, v).
Qed.

Lemma um_elem_find k v (l : registry) : um_find k l = Some v -> (k, v) ∈ l.
Proof.
  induction l as [|[k' v'] rest IH]; [done|].
  cbn [um_find]. case_decide.
  - intros [= ->]. subst. apply elem_of_cons. by left.
  - intros Hf. apply elem_of_cons. right. by apply IH.
Qed.

Lemma um_assign_NoDup O k v (l : registry) :
  NoDup l.*1 -> NoDup (um_assign O k v l).*1.
Proof.
  intros Hnd. unfold um_assign. destruct (um_find k l) eqn:Hf.
  - by rewrite um_replace_keys.
  - rewrite (um_place_perm O k v l), fmap_cons. apply NoDup_cons.
    split; [by apply um_find_None|done].
Qed.

Lemma um_assign_find O k v (l : registry) :
  NoDup l.*1 -> um_find k (um_assign O k v l) = Some v.
Proof.
  intros Hnd. pose proof (um_assign_NoDup O k v l Hnd) as Hnd'.
  unfold um_assign in *. destruct (um_find k l) eqn:Hf.
  - by eapply um_find_replace_eq.
  - apply um_find_elem; [done|]. rewrite (um_place_perm O k v l).
    apply elem_of_cons. by left.
Qed.

Lemma um_assign_find_ne O k k' v (l : registry) :
  NoDup l.*1 -> k' <> k -> um_find k' (um_assign O k v l) = um_find k' l.
Proof.
  intros Hnd Hne. pose proof (um_assign_NoDup O k v l Hnd) as Hnd'.
  unfold um_assign in *. destruct (um_find k l) eqn:Hf.
  - by apply um_find_replace_ne.
  - destruct (um_find k' l) as [v'|] eqn:Hf'.
    + apply um_find_elem; [done|]. rewrite (um_place_perm O k v l).
      apply elem_of_cons. right. by apply um_elem_find.
    + apply um_find_None. rewrite (um_place_perm O k v l), fmap_cons.
      apply not_elem_of_cons. split; [done|]. by apply um_find_None.
Qed.

(** C8. When the registry has an entry for the name of the library passed
    to [loadLibrary], the call keeps the keys and their order, leaves every
    other key with its library, and maps the name to the library passed in;
    the registry is unchanged when that is the library already registered.
    The dependency phase of [linkExecutable], which looks the name up first,
    leaves the whole state unchanged for such a library. *)
Theorem loadLibrary_registered O lib l old s :
  libs (world s) !! lib = Some l ->
  um_find (lib_name l) (loadedLibraries (linker s)) = Some old ->
  exists reg',
    loadLibrary O lib s = Ret tt (set_registry reg' s) /\
    reg'.*1 = (loadedLibraries (linker s)).*1 /\
    um_find (lib_name l) reg' = Some lib /\
    (forall k, k <> lib_name l ->
               um_find k reg' = um_find k (loadedLibraries (linker s))) /\
    (old = lib -> reg' = loadedLibraries (linker s)) /\
    load_dependencies O [lib] s = Ret tt s.
Proof.
  intros Hl Hold.
  exists (um_replace (lib_name l) lib (loadedLibraries (linker s))).
  split; [|split; [|split; [|split; [|split]]]].
  - unfold loadLibrary, bind, modify. rewrite (in_world_deref_lib _ _ _ Hl).
    unfold um_assign. by rewrite Hold.
  - apply um_replace_keys.
  - by eapply um_find_replace_eq.
  - intros k Hk. by apply um_find_replace_ne.
  - intros ->. by apply um_replace_same.
  - cbn [load_dependencies]. unfold bind, get.
    rewrite (in_world_deref_lib _ _ _ Hl), Hold. reflexivity.
Qed.

Lemma loadLibrary_registered_witness :
  let s := state_after (loadLibrary newest_first 0%nat)
             (fresh_linker (state_after same_name_libraries World_new)) in
  exists reg',
    loadLibrary newest_first 0%nat s = Ret tt (set_registry reg' s) /\
    reg'.*1 = (loadedLibraries (linker s)).*1 /\
    um_find "libm.so" reg' = Some 0%nat /\
    (forall k, k <> "libm.so" ->
               um_find k reg' = um_find k (loadedLibraries (linker s))) /\
    (0%nat = 0%nat -> reg' = loadedLibraries (linker s)) /\
    load_dependencies newest_first [0%nat] s = Ret tt s.
Proof.
  intros s.
  assert (Hl : libs (world s) !! 0%nat =
               Some {| lib_name := "libm.so"; lib_base_address := 0;
                       symbols := ∅ |}) by by_compute.
  assert (Hold : um_find "libm.so" (loadedLibraries (linker s)) = Some 0%nat)
    by by_compute.
  exact (loadLibrary_registered newest_first 0%nat _ 0%nat s Hl Hold).
Defined.

(** [loadLibrary] with another library object of a registered name replaces
    the registered library. *)
Lemma loadLibrary_replaces :
  returned (same_name_libraries World_new) = Some (0%nat, 1%nat) /\
  let s := state_after (loadLibrary newest_first 0%nat)
             (fresh_linker (state_after same_name_libraries World_new)) in
  loadedLibraries (linker s) = [("libm.so", 0%nat)] /\
  returned (loadLibrary newest_first 1%nat s) = Some tt /\
  loadedLibraries (linker (state_after (loadLibrary newest_first 1%nat) s)) =
    [("libm.so", 1%nat)].
Proof. repeat split; vm_compute; reflexivity. Qed.

(** ** The search for a symbol *)

Lemma resolve_frame name (reg : registry) w w2 :
  libs w2 = libs w ->
  resolve name reg w2 =
    match resolve name reg w with
    | Ret x _ => Ret x w2
    | Throw e _ => Throw e w2
    | Undefined => Undefined
    end.
Proof.
  intros Hlibs. induction reg as [|[k r] rest IH]; [done|].
  cbn [resolve]. unfold bind, deref_lib. rewrite Hlibs.
  destruct (libs w !! r) as [l|]; [|done].
  destruct (findSymbol l name); [done|]. exact IH.
Qed.

Lemma resolve_Ret_state name (reg : registry) w x w' :
  resolve name reg w = Ret x w' -> w' = w.
Proof.
  induction reg as [|[k r] rest IH].
  - cbn [resolve]. unfold ret. by intros [= _ ->].
  - cbn [resolve]. unfold bind, deref_lib.
    destruct (libs w !! r) as [l|]; [|done].
    destruct (findSymbol l name); [|exact IH].
    unfold ret. by intros [= _ ->].
Qed.

Lemma resolve_skips name (pre rest : registry) w :
  Forall (exports_nothing (libs w) name) pre ->
  resolve name (pre ++ rest) w = resolve name rest w.
Proof.
  induction 1 as [|[k r] pre Hk _ IH]; [done|].
  cbn [app resolve]. unfold bind, deref_lib.
  unfold exports_nothing in Hk. cbn [snd] in Hk.
  destruct (libs w !! r) as [l|]; [|done].
  cbn [fmap option_fmap option_map] in Hk. simplify_eq. by rewrite Hk.
Qed.

Lemma resolve_unexported name (reg : registry) w :
  Forall (exports_nothing (libs w) name) reg ->
  resolve name reg w = Ret None w.
Proof.
  intros Hreg. rewrite <- (app_nil_r reg). by rewrite resolve_skips.
Qed.

Lemma resolved_address_frame s s' name :
  linker s' = linker s -> libs (world s') = libs (world s) ->
  resolved_address s' name = resolved_address s name.
Proof.
  intros Hl Hw. unfold resolved_address. rewrite Hl.
  rewrite (resolve_frame _ _ (world s) (world s')) by done.
  by destruct (resolve _ _ (world s)).
Qed.

(** C5. The search for a symbol selects the first library, in the iteration
    order of the registry, that exports the name: the libraries before it in
    that order do not export it, and the libraries after it are not
    consulted.  The selection is a function of the registry and of the
    libraries. *)
Theorem resolve_first_in_iteration_order name (pre post : registry) k r l sym w :
  Forall (exports_nothing (libs w) name) pre ->
  libs w !! r = Some l ->
  findSymbol l name = Some sym ->
  resolve name (pre ++ (k, r) :: post) w = Ret (Some (k, sym)) w /\
  resolved_address
    {| linker := {| loadedLibraries := pre ++ (k, r) :: post |}; world := w |}
    name = Some (sym_address sym).
Proof.
  intros Hpre Hl Hsym.
  assert (E : resolve name (pre ++ (k, r) :: post) w = Ret (Some (k, sym)) w).
  { rewrite resolve_skips by done. cbn [resolve]. unfold bind, deref_lib.
    by rewrite Hl, Hsym. }
  split; [exact E|]. unfold resolved_address.
  cbn [linker world loadedLibraries]. by rewrite E.
Qed.

Lemma resolve_first_in_iteration_order_witness :
  let w := state_after colliding_libraries World_new in
  let reg := [("liba.so", 0%nat); ("libb.so", 1%nat); ("libc.so", 2%nat)] in
  resolve "h" reg w = Ret (Some ("libb.so", mkSymbol "h" 288)) w /\
  resolved_address {| linker := {| loadedLibraries := reg |}; world := w |} "h" =
    Some 288.
Proof.
  intros w reg.
  assert (Hpre : Forall (exports_nothing (libs w) "h") [("liba.so", 0%nat)])
    by (repeat constructor; vm_compute; reflexivity).
  assert (Hl : libs w !! 1%nat =
               Some {| lib_name := "libb.so"; lib_base_address := 256;
                       symbols := {[ "h" := mkSymbol "h" 288 ]} |})
    by by_compute.
  exact (resolve_first_in_iteration_order "h" [("liba.so", 0%nat)]
           [("libc.so", 2%nat)] "libb.so" 1%nat _ (mkSymbol "h" 288) w
           Hpre Hl eq_refl).
Defined.

(** Two libraries that both export ["h"], registered by the dependency loop
    of [linkExecutable] in the order [liba.so], [libb.so]: a table that
    links the node of a new key at the head of its list iterates [libb.so]
    first, and the relocation of ["h"] gets the address in the library
    registered second, not the one in the library registered first. *)
Lemma resolve_second_registered_wins :
  returned (two_exporters World_new) = Some (0%nat, 1%nat, 0%nat) /\
  let w := state_after two_exporters World_new in
  (fun l => findSymbol l "h") <$> libs w !! 0%nat = Some (Some (mkSymbol "h" 16)) /\
  (fun l => findSymbol l "h") <$> libs w !! 1%nat = Some (Some (mkSymbol "h" 288)) /\
  dependencies <$> exes w !! 0%nat = Some [0%nat; 1%nat] /\
  let link := linkExecutable newest_first 0%nat in
  returned (link (fresh_linker w)) = Some tt /\
  let s := state_after link (fresh_linker w) in
  loadedLibraries (linker s) = [("libb.so", 1%nat); ("liba.so", 0%nat)] /\
  (fun e => symbolAddresses e !! "h") <$> exes (world s) !! 0%nat =
    Some (Some 288).
Proof. repeat split; vm_compute; reflexivity. Qed.

(** With two keys, a table that links a new node at the head of its bucket
    iterates the newer key first, whatever the buckets are: the order of the
    registry above does not depend on the hash function.  With three keys
    it does: when the first and the third share a bucket that the second is
    not in, the third is linked between the second and the first. *)
Lemma two_keys_newest_first bucket k1 v1 k2 v2 :
  k1 <> k2 ->
  um_assign (bucket_order bucket) k2 v2 (um_assign (bucket_order bucket) k1 v1 []) =
    um_assign newest_first k2 v2 (um_assign newest_first k1 v1 []).
Proof.
  intros Hne.
  change (um_assign (bucket_order bucket) k1 v1 []) with [(k1, v1)].
  change (um_assign newest_first k1 v1 []) with [(k1, v1)].
  unfold um_assign. cbn [um_find]. rewrite decide_False by done.
  cbn [um_place bucket_order newest_first]. unfold bucket_place.
  cbn [link_in_bucket]. by case_decide.
Qed.

Lemma three_keys_with_collision bucket k1 v1 k2 v2 k3 v3 :
  k1 <> k2 -> k1 <> k3 -> k2 <> k3 ->
  bucket k1 = bucket k3 -> bucket k2 <> bucket k3 ->
  um_assign (bucket_order bucket) k3 v3
    (um_assign (bucket_order bucket) k2 v2
       (um_assign (bucket_order bucket) k1 v1 [])) =
    [(k2, v2); (k3, v3); (k1, v1)].
Proof.
  intros H12 H13 H23 Hb13 Hb23. rewrite two_keys_newest_first by done.
  assert (E : um_assign newest_first k2 v2 (um_assign newest_first k1 v1 []) =
              [(k2, v2); (k1, v1)]).
  { change (um_assign newest_first k1 v1 []) with [(k1, v1)].
    unfold um_assign. cbn [um_find]. by rewrite decide_False by done. }
  rewrite E. unfold um_assign. cbn [um_find]. rewrite !decide_False by done.
  cbn [um_place bucket_order]. unfold bucket_place. cbn [link_in_bucket].
  rewrite decide_False by done. by rewrite decide_True by done.
Qed.

(** ** Linking *)

Lemma loadLibrary_world O lib s s' :
  loadLibrary O lib s = Ret tt s' -> world s' = world s.
Proof.
  unfold loadLibrary, bind, in_world, zoom, deref_lib, modify.
  destruct (libs (world s) !! lib); [|done]. by intros [= <-].
Qed.

Lemma load_dependencies_world O deps s s' :
  load_dependencies O deps s = Ret tt s' -> world s' = world s.
Proof.
  revert s. induction deps as [|dep rest IH]; intros s.
  - cbn [load_dependencies]. unfold ret. by intros [= <-].
  - cbn [load_dependencies]. unfold bind, get, in_world, zoom, deref_lib.
    destruct (libs (world s) !! dep) as [d|] eqn:Hd; [|done].
    rewrite set_world_id.
    destruct (um_find _ _).
    + unfold ret. apply IH.
    + destruct (loadLibrary O dep s) as [[] s1| |] eqn:Hload; [|done..].
      intros Hrest. apply IH in Hrest. apply loadLibrary_world in Hload.
      congruence.
Qed.

Lemma with_symbolAddresses_id e : with_symbolAddresses (symbolAddresses e) e = e.
Proof. by destruct e. Qed.

(** One relocation that is applied. *)
Lemma relocate_Ret exe r s s' e :
  exes (world s) !! exe = Some e ->
  relocate exe r s = Ret tt s' ->
  exists a,
    resolved_address s (symbolName r) = Some a /\
    linker s' = linker s /\
    libs (world s') = libs (world s) /\
    exes (world s') =
      <[exe := with_symbolAddress (symbolName r) a e]> (exes (world s)) /\
    write (wrap64 (exe_base_address e + offset r)) (le_bytes 8 a) (vm (world s)) =
      Ret tt (vm (world s')).
Proof.
  intros He. unfold relocate, bind, get. unfold resolved_address.
  unfold in_world at 1. unfold zoom.
  destruct (resolve _ _ (world s)) as [x w1| |] eqn:Hres; [|done..].
  apply resolve_Ret_state in Hres as Hw1. subst w1. rewrite set_world_id.
  destruct x as [[k sym]|]; [|done].
  rewrite (in_world_deref_exe _ _ _ He).
  unfold in_world, on_vm, zoom, modify. cbn [world set_world vm set_exe].
  destruct (write _ _ (vm (world s))) as [[] v'| |] eqn:Hw; [|done..].
  intros [= <-]. exists (sym_address sym). by cbn.
Qed.

(** One relocation whose symbol no loaded library exports. *)
Lemma relocate_unexported exe r s :
  unexported (symbolName r) s ->
  relocate exe r s = Throw (UnresolvedSymbol (symbolName r)) s.
Proof.
  intros Hun. unfold relocate, bind, get, in_world, zoom.
  rewrite resolve_unexported by done. by rewrite set_world_id.
Qed.

Lemma relocate_all_app exe pre rest s :
  relocate_all exe (pre ++ rest) s =
    (relocate_all exe pre ;;; relocate_all exe rest) s.
Proof.
  revert s. induction pre as [|r pre IH]; intros s; [done|].
  cbn [app relocate_all]. unfold bind in *.
  destruct (relocate exe r s) as [[] s1| |]; [|done..].
  apply IH.
Qed.

(** The relocations of a list that is applied whole. *)
Lemma relocate_all_Ret exe rs s s' e :
  exes (world s) !! exe = Some e ->
  relocate_all exe rs s = Ret tt s' ->
  linker s' = linker s /\
  libs (world s') = libs (world s) /\
  exists addrs,
    Forall2 (fun rel a => resolved_address s (symbolName rel) = Some a) rs addrs /\
    exes (world s') =
      <[exe := with_symbolAddresses
                 (record_all (symbolAddresses e) (zip rs addrs)) e]>
        (exes (world s)) /\
    write_all (exe_base_address e) (zip rs addrs) (vm (world s)) =
      Ret tt (vm (world s')).
Proof.
  revert s e. induction rs as [|r rest IH]; intros s e He Hrun.
  - cbn [relocate_all] in Hrun. unfold ret in Hrun. simplify_eq.
    split; [done|]. split; [done|]. exists []. split; [constructor|].
    split; [|done]. cbn [zip zip_with record_all foldl].
    rewrite with_symbolAddresses_id. symmetry. by apply list_insert_id.
  - cbn [relocate_all] in Hrun. unfold bind in Hrun.
    destruct (relocate exe r s) as [[] s1| |] eqn:Hr; [|done..].
    destruct (relocate_Ret _ _ _ _ _ He Hr) as (a & Ha & Hl1 & Hlibs1 & Hexes1 & Hw1).
    set (e1 := with_symbolAddress (symbolName r) a e) in *.
    assert (He1 : exes (world s1) !! exe = Some e1).
    { rewrite Hexes1. apply list_lookup_insert_eq. by eapply lookup_lt_Some. }
    destruct (IH s1 e1 He1 Hrun) as (Hl & Hlibs & addrs & Hall & Hexes & Hw).
    split; [congruence|]. split; [congruence|].
    exists (a :: addrs). split; [|split].
    + constructor; [done|].
      eapply Forall2_impl; [exact Hall|]. intros rel a' Hrel.
      by rewrite <- (resolved_address_frame s s1).
    + rewrite Hexes, Hexes1, list_insert_insert_eq. reflexivity.
    + cbn [zip zip_with write_all]. unfold bind. rewrite Hw1. exact Hw.
Qed.

Lemma record_all_dom m l :
  dom (record_all m l) = dom m ∪ list_to_set ((fun p => symbolName p.1) <$> l).
Proof.
  revert m. induction l as [|[r a] l IH]; intros m.
  - cbn. by rewrite union_empty_r_L.
  - cbn [record_all foldl fmap list_fmap list_to_set fst snd].
    fold (record_all (<[symbolName r := a]> m) l). rewrite IH, dom_insert_L.
    by rewrite (union_comm_L {[symbolName r]} (dom m)), <- union_assoc_L.
Qed.

Lemma names_of_entries (l : list (Relocation * Z)) :
  (fun p => symbolName p.1) <$> l = symbolName <$> l.*1.
Proof. by rewrite <- list_fmap_compose. Qed.

(** C1. When [linkExecutable] reaches a relocation whose symbol no loaded
    library exports, it throws UnresolvedSymbol with the name of that
    symbol.  The state it leaves is the one reached before that relocation:
    [symbolAddresses] is the map of the executable at the call, updated in
    list order with an entry for each earlier relocation, at its resolved
    address, and the 8-byte writes of these relocations have been applied.
    From an empty map, the entries are exactly those of the earlier
    relocations. *)
Theorem linkExecutable_unresolved O exe e s s1 s2 pre r post :
  exes (world s) !! exe = Some e ->
  relocations e = pre ++ r :: post ->
  load_dependencies O (dependencies e) s = Ret tt s1 ->
  relocate_all exe pre s1 = Ret tt s2 ->
  unexported (symbolName r) s1 ->
  linkExecutable O exe s = Throw (UnresolvedSymbol (symbolName r)) s2 /\
  exists addrs e2,
    Forall2 (fun rel a => resolved_address s1 (symbolName rel) = Some a) pre addrs /\
    exes (world s2) !! exe = Some e2 /\
    symbolAddresses e2 = record_all (symbolAddresses e) (zip pre addrs) /\
    (symbolAddresses e = ∅ ->
     dom (symbolAddresses e2) = list_to_set (symbolName <$> pre)) /\
    write_all (exe_base_address e) (zip pre addrs) (vm (world s)) =
      Ret tt (vm (world s2)).
Proof.
  intros He Hrels Hdeps Hpre Hun.
  pose proof (load_dependencies_world _ _ _ _ Hdeps) as Hw1.
  assert (He1 : exes (world s1) !! exe = Some e) by by rewrite Hw1.
  destruct (relocate_all_Ret _ _ _ _ _ He1 Hpre)
    as (Hl2 & Hlibs2 & addrs & Hall & Hexes & Hwrites).
  assert (Hun2 : unexported (symbolName r) s2).
  { unfold unexported in *. by rewrite Hl2, Hlibs2. }
  split.
  - unfold linkExecutable, bind. rewrite (in_world_deref_exe _ _ _ He), Hdeps.
    rewrite Hrels, relocate_all_app. unfold bind. rewrite Hpre.
    cbn [relocate_all]. unfold bind. by rewrite relocate_unexported.
  - exists addrs, (with_symbolAddresses
                     (record_all (symbolAddresses e) (zip pre addrs)) e).
    split; [done|]. split; [|split; [done|split]].
    + rewrite Hexes. apply list_lookup_insert_eq. by eapply lookup_lt_Some.
    + intros Hempty. cbn [with_symbolAddresses symbolAddresses].
      rewrite record_all_dom, Hempty, dom_empty_L, union_empty_l_L.
      f_equal. rewrite names_of_entries.
      rewrite fst_zip; [done|]. apply Forall2_length in Hall. lia.
    + by rewrite <- Hw1.
Qed.

Lemma linkExecutable_unresolved_witness :
  let s := fresh_linker (state_after missing_symbol World_new) in
  let s1 := state_after (load_dependencies oldest_first [0%nat]) s in
  let s2 := state_after (relocate_all 0%nat [mkRelocation "f" 0]) s1 in
  linkExecutable oldest_first 0%nat s = Throw (UnresolvedSymbol "g") s2 /\
  (fun e => map_to_list (symbolAddresses e)) <$> exes (world s2) !! 0%nat =
    Some [("f", 16)].
Proof.
  intros s s1 s2.
  assert (He : exes (world s) !! 0%nat =
               Some {| exe_name := "app"; exe_base_address := 256;
                       dependencies := [0%nat];
                       relocations := [mkRelocation "f" 0; mkRelocation "g" 8;
                                       mkRelocation "f" 16];
                       symbolAddresses := ∅ |}) by by_compute.
  assert (Hdeps : load_dependencies oldest_first [0%nat] s = Ret tt s1)
    by by_compute.
  assert (Hpre : relocate_all 0%nat [mkRelocation "f" 0] s1 = Ret tt s2)
    by by_compute.
  assert (Hun : unexported "g" s1) by by_compute.
  split.
  - exact (proj1 (linkExecutable_unresolved oldest_first 0%nat _ s s1 s2
                    [mkRelocation "f" 0] (mkRelocation "g" 8)
                    [mkRelocation "f" 16] He eq_refl Hdeps Hpre Hun)).
  - vm_compute. reflexivity.
Defined.

(** An executable that was linked before keeps the entries of that link:
    relinked by a linker that has loaded nothing, it fails on its first
    relocation with the entry of that very relocation in [symbolAddresses]. *)
Lemma linkExecutable_keeps_earlier_entries :
  returned (undeclared_dependency World_new) = Some (0%nat, 0%nat) /\
  let first := loadLibrary oldest_first 0%nat ;;; linkExecutable oldest_first 0%nat in
  let w := state_after undeclared_dependency World_new in
  returned (first (fresh_linker w)) = Some tt /\
  let w1 := world (state_after first (fresh_linker w)) in
  relocations <$> exes w1 !! 0%nat = Some [mkRelocation "x" 0] /\
  thrown (linkExecutable oldest_first 0%nat (fresh_linker w1)) =
    Some (UnresolvedSymbol "x") /\
  let w2 := world (state_after (linkExecutable oldest_first 0%nat) (fresh_linker w1)) in
  (fun e => map_to_list (symbolAddresses e)) <$> exes w2 !! 0%nat =
    Some [("x", 16)].
Proof. repeat split; vm_compute; reflexivity. Qed.

(** * Further properties of the virtual memory *)



(** X2. [allocate(size)] returns exactly when the pages it needs are left.
    It then returns the address of the page at the cursor, moves the cursor
    by the pages needed, flags those pages and no other, and leaves the
    bytes alone. *)
Theorem allocate_returns_iff_room size vm :
  vm_wf vm ->
  (next_free_page vm + pages_needed size <= NUM_PAGES <->
   exists a vm', allocate size vm = Ret a vm') /\
  forall a vm', allocate size vm = Ret a vm' ->
    a = next_free_page vm * PAGE_SIZE /\
    next_free_page vm' = next_free_page vm + pages_needed size /\
    memory vm' = memory vm /\
    (forall p, next_free_page vm <= p < next_free_page vm + pages_needed size ->
               page_table vm' !! Z.to_nat p = Some true) /\
    (forall p : nat,
       Z.of_nat p < next_free_page vm \/
       next_free_page vm + pages_needed size <= Z.of_nat p ->
       page_table vm' !! p = page_table vm !! p).
Proof.
  intros Hwf. pose proof (pages_needed_range size) as Hpn.
  destruct (allocate_cases size vm Hwf) as [[Hn E]|[Hn E]]; rewrite E.
  - split; [split; [by eauto|done]|].
    intros a vm' [= <- <-]. destruct Hwf as [_ Hlen Hc].
    split; [done|]. split; [rewrite flag_pages_cursor; lia|].
    split; [apply flag_pages_memory|]. split.
    + intros p Hp. apply flag_pages_flagged; lia.
    + intros p Hp. apply flag_pages_other; lia.
  - split; [|done]. split; [lia|]. by intros (a & vm' & ?).
Qed.

Lemma allocate_returns_iff_room_witness :
  let vm := state_after (allocate 300) VirtualMemory_new in
  (exists a vm', allocate 1000 vm = Ret a vm') /\
  ~ (exists a vm', allocate (MEMORY_SIZE - 511) vm = Ret a vm').
Proof.
  intros vm.
  assert (Hwf : vm_wf vm).
  { split; vm_compute; [reflexivity|reflexivity|split; discriminate]. }
  split.
  - apply (proj1 (allocate_returns_iff_room 1000 vm Hwf)).
    vm_compute. discriminate.
  - intros H.
    apply (proj1 (allocate_returns_iff_room (MEMORY_SIZE - 511) vm Hwf)) in H.
    vm_compute in H. by apply H.
Defined.

Lemma first_unallocated_unique vm a j j' :
  (forall k, 0 <= k < j -> allocated vm (a + k)) -> ~ allocated vm (a + j) ->
  (forall k, 0 <= k < j' -> allocated vm (a + k)) -> ~ allocated vm (a + j') ->
  0 <= j -> 0 <= j' -> j = j'.
Proof.
  intros Hb Hn Hb' Hn' H0 H0'.
  destruct (Z.lt_trichotomy j j') as [Hlt|[Heq|Hgt]]; [|done|].
  - exfalso. apply Hn, Hb'. lia.
  - exfalso. apply Hn', Hb. lia.
Qed.

(** X3. A [write] inside the address space that meets a page that is not
    flagged throws a segmentation fault at the first such byte; the bytes
    before it have been stored and stay stored. *)
Theorem write_faults_at_first_unallocated a data vm j :
  vm_wf vm -> 0 <= a ->
  a + Z.of_nat (length data) <= MEMORY_SIZE ->
  0 <= j < Z.of_nat (length data) ->
  (forall k, 0 <= k < j -> allocated vm (a + k)) ->
  ~ allocated vm (a + j) ->
  write a data vm =
    Throw SegFaultWrite
      (with_memory (store_bytes (Z.to_nat a) (take (Z.to_nat j) data) (memory vm)) vm).
Proof.
  intros Hwf Ha Hend Hj Hbefore Hbad. unfold write.
  destruct (write_loop_inside a 0 data vm Hwf Ha) as [[Hall _]|(j' & Hj' & Hb' & Hn' & E)];
    [lia|lia| |]; rewrite Z.add_0_r in *.
  - exfalso. apply Hbad, Hall. lia.
  - assert (j = j') as <-; [|done].
    eapply first_unallocated_unique; eauto; lia.
Qed.

Lemma write_faults_at_first_unallocated_witness :
  let vm := state_after (allocate 300) VirtualMemory_new in
  write 510 [1; 2; 3; 4] vm =
    Throw SegFaultWrite (with_memory (store_bytes 510 [1; 2] (memory vm)) vm).
Proof.
  intros vm.
  assert (Hwf : vm_wf vm).
  { split; vm_compute; [reflexivity|reflexivity|split; discriminate]. }
  assert (Hend : 510 + Z.of_nat (length [1; 2; 3; 4]) <= MEMORY_SIZE)
    by (vm_compute; discriminate).
  assert (Hbefore : forall k, 0 <= k < 2 -> allocated vm (510 + k)).
  { intros k Hk. assert (k = 0 \/ k = 1) as [->| ->] by lia; vm_compute; reflexivity. }
  assert (Hbad : ~ allocated vm (510 + 2)) by (vm_compute; discriminate).
  exact (write_faults_at_first_unallocated 510 [1; 2; 3; 4] vm 2 Hwf
           ltac:(lia) Hend ltac:(vm_compute; split; [discriminate|reflexivity])
           Hbefore Hbad).
Defined.

Lemma read_loop_cases a i n vm :
  vm_wf vm -> 0 <= a -> 0 <= i ->
  a + i + Z.of_nat n <= MEMORY_SIZE ->
  ((forall j, 0 <= j < Z.of_nat n -> allocated vm (a + i + j)) /\
   read_loop a i n vm = Ret (take n (drop (Z.to_nat (a + i)) (memory vm))) vm) \/
  ((exists j, 0 <= j < Z.of_nat n /\ ~ allocated vm (a + i + j)) /\
   read_loop a i n vm = Throw SegFaultRead vm).
Proof.
  intros Hwf Ha. revert i. induction n as [|n IH]; intros i Hi Hend.
  - left. split; [lia|done].
  - assert (Hin : 0 <= a + i < MEMORY_SIZE) by lia.
    destruct (page_lookup vm (a + i) Hwf Hin) as [f Hf].
    destruct f; [destruct (IH (i + 1)) as [[Hall E]|[(j & Hj & Hbad) E]]; [lia..| |]|].
    + left. assert (Hall' : forall j, 0 <= j < Z.of_nat (S n) -> allocated vm (a + i + j)).
      { intros j Hj. destruct (decide (j = 0)) as [->|Hne].
        - by rewrite Z.add_0_r.
        - replace (a + i + j) with (a + (i + 1) + (j - 1)) by lia. apply Hall. lia. }
      split; [done|]. by apply read_loop_inside.
    + right. split.
      * exists (j + 1). split; [lia|].
        by replace (a + i + (j + 1)) with (a + (i + 1) + j) by lia.
      * cbn [read_loop]. unfold bind, get.
        rewrite wrap64_small
          by (unfold MEMORY_SIZE, PAGE_SIZE, NUM_PAGES in *; lia).
        rewrite Hf.
        destruct (lookup_lt_is_Some_2 (memory vm) (Z.to_nat (a + i))) as [b Hb];
          [destruct Hwf as [Hm _ _]; lia|].
        by rewrite Hb, E.
    + right. split.
      * exists 0. split; [lia|]. unfold allocated. rewrite Z.add_0_r, Hf. done.
      * cbn [read_loop]. unfold bind, get.
        rewrite wrap64_small
          by (unfold MEMORY_SIZE, PAGE_SIZE, NUM_PAGES in *; lia).
        by rewrite Hf.
Qed.

(** X4. A [read] inside the address space returns the stored bytes when
    every byte is on a flagged page, and otherwise throws a segmentation
    fault; in both cases the address space is as before. *)
Theorem read_inside_cases a n vm :
  vm_wf vm -> 0 <= a -> 0 <= n ->
  a + n <= MEMORY_SIZE ->
  ((forall j, 0 <= j < n -> allocated vm (a + j)) /\
   read a n vm = Ret (take (Z.to_nat n) (drop (Z.to_nat a) (memory vm))) vm) \/
  ((exists j, 0 <= j < n /\ ~ allocated vm (a + j)) /\
   read a n vm = Throw SegFaultRead vm).
Proof.
  intros Hwf Ha Hn Hend. unfold read.
  destruct (read_loop_cases a 0 (Z.to_nat n) vm Hwf Ha) as [[Hall E]|[(j & Hj & Hbad) E]];
    [lia|lia| |]; rewrite Z.add_0_r in *; rewrite E.
  - left. split; [|done]. intros j Hj. apply Hall. lia.
  - right. split; [|done]. exists j. split; [lia|done].
Qed.

Lemma read_inside_cases_witness :
  let vm := state_after (allocate 300) VirtualMemory_new in
  (exists j, 0 <= j < 4 /\ ~ allocated vm (510 + j)) /\
  read 510 4 vm = Throw SegFaultRead vm.
Proof.
  intros vm.
  assert (Hwf : vm_wf vm).
  { split; vm_compute; [reflexivity|reflexivity|split; discriminate]. }
  assert (Hend : 510 + 4 <= MEMORY_SIZE) by (vm_compute; discriminate).
  destruct (read_inside_cases 510 4 vm Hwf ltac:(lia) ltac:(lia) Hend)
    as [[Hall _]|Hfault]; [|exact Hfault].
  exfalso. assert (H2 : 0 <= 2 < 4) by lia.
  specialize (Hall 2 H2). vm_compute in Hall. discriminate.
Defined.

Lemma print_memory_loop_of_read start i n vm bytes vm' :
  read_loop start i n vm = Ret bytes vm' ->
  print_memory_loop start i n vm = Ret bytes vm.
Proof.
  revert i bytes vm'. induction n as [|n IH]; intros i bytes vm'.
  - cbn. unfold ret. by intros [= <- _].
  - cbn [read_loop print_memory_loop]. unfold bind, get.
    destruct (page_table vm !! _) as [[]|]; [|done..].
    destruct (memory vm !! _) as [b|]; [|done].
    destruct (read_loop start (i + 1) n vm) as [rest vm1| |] eqn:Hr; [|done..].
    rewrite (IH _ _ _ Hr). unfold ret. by intros [= <- _].
Qed.

(** X5. Over a range that [read] can read, [print_memory] shows the bytes
    that [read] returns. *)
Theorem print_memory_shows_what_read_returns start size vm bytes vm' :
  read start size vm = Ret bytes vm' ->
  print_memory start size vm = Ret bytes vm.
Proof. apply print_memory_loop_of_read. Qed.

Lemma print_memory_shows_what_read_returns_witness :
  let vm := state_after (write 254 [7; 8; 9])
              (state_after (allocate 300) VirtualMemory_new) in
  print_memory 253 5 vm = Ret [0; 7; 8; 9; 0] vm.
Proof.
  intros vm.
  assert (Hr : read 253 5 vm = Ret [0; 7; 8; 9; 0] vm) by by_compute.
  exact (print_memory_shows_what_read_returns 253 5 vm _ vm Hr).
Defined.

Lemma print_memory_loop_inside a i n vm :
  vm_wf vm -> 0 <= a -> 0 <= i ->
  a + i + Z.of_nat n <= MEMORY_SIZE ->
  print_memory_loop a i n vm =
    Ret (take n (drop (Z.to_nat (a + i)) (memory vm))) vm.
Proof.
  intros Hwf Ha. revert i. induction n as [|n IH]; intros i Hi Hend; [done|].
  cbn [print_memory_loop]. unfold bind, get.
  rewrite wrap64_small by (unfold MEMORY_SIZE, PAGE_SIZE, NUM_PAGES in *; lia).
  destruct (lookup_lt_is_Some_2 (memory vm) (Z.to_nat (a + i))) as [b Hb];
    [destruct Hwf as [Hm _ _]; lia|].
  rewrite Hb, IH by lia. unfold ret. f_equal.
  replace (Z.to_nat (a + (i + 1))) with (S (Z.to_nat (a + i))) by lia.
  by erewrite (drop_S _ _ (Z.to_nat (a + i))).
Qed.

(** X6. [print_memory] has no page check: inside the address space it shows
    the bytes of any range, allocated or not; a range that reaches
    [MEMORY_SIZE] indexes [memory] past its end. *)
Theorem print_memory_unchecked a n vm :
  vm_wf vm -> 0 <= a -> 0 <= n ->
  (a + n <= MEMORY_SIZE ->
   print_memory a n vm =
     Ret (take (Z.to_nat n) (drop (Z.to_nat a) (memory vm))) vm) /\
  (a < MEMORY_SIZE < a + n -> print_memory a n vm = Undefined).
Proof.
  intros Hwf Ha Hn. split.
  - intros Hend. unfold print_memory.
    rewrite print_memory_loop_inside; [by rewrite Z.add_0_r|done|lia..].
  - intros [Hlt Hgt]. unfold print_memory.
    replace (Z.to_nat n) with (Z.to_nat (MEMORY_SIZE - a) + S (Z.to_nat (a + n - MEMORY_SIZE - 1)))%nat
      by lia.
    generalize (Z.to_nat (a + n - MEMORY_SIZE - 1)). intros m.
    assert (Hgen : forall k i, 0 <= i -> a + i + Z.of_nat k = MEMORY_SIZE ->
              print_memory_loop a i (k + S m) vm = Undefined).
    { induction k as [|k IH]; intros i Hi Hk.
      - cbn [Nat.add print_memory_loop]. unfold bind, get.
        rewrite wrap64_small
          by (unfold MEMORY_SIZE, PAGE_SIZE, NUM_PAGES in *; lia).
        rewrite lookup_ge_None_2; [done|]. destruct Hwf as [Hm _ _]. lia.
      - cbn [Nat.add print_memory_loop]. unfold bind, get.
        rewrite wrap64_small
          by (unfold MEMORY_SIZE, PAGE_SIZE, NUM_PAGES in *; lia).
        destruct (memory vm !! _); [|done].
        rewrite IH; [done|lia|lia]. }
    apply Hgen; lia.
Qed.

Lemma print_memory_unchecked_witness :
  let vm := state_after (allocate 300) VirtualMemory_new in
  print_memory 510 4 vm = Ret [0; 0; 0; 0] vm /\
  read 510 4 vm = Throw SegFaultRead vm /\
  print_memory (MEMORY_SIZE - 2) 4 vm = Undefined.
Proof.
  intros vm.
  assert (Hwf : vm_wf vm).
  { split; vm_compute; [reflexivity|reflexivity|split; discriminate]. }
  split; [|split].
  - pose proof (proj1 (print_memory_unchecked 510 4 vm Hwf ltac:(lia) ltac:(lia))
                  ltac:(vm_compute; discriminate)) as H.
    rewrite H. by_compute.
  - by_compute.
  - apply (proj2 (print_memory_unchecked (MEMORY_SIZE - 2) 4 vm Hwf
                    ltac:(vm_compute; discriminate) ltac:(lia))).
    vm_compute. split; reflexivity.
Defined.


Lemma run_op_inside op vm :
  vm_wf vm -> op_inside op -> exists o, run_op op vm = Some o.
Proof.
  intros Hwf. destruct op as [size|address data|address size|start size];
    cbn [run_op op_inside].
  - intros _. destruct (allocate_cases size vm Hwf) as [[_ E]|[_ E]];
      rewrite E; by eexists.
  - intros [Ha Hend]. unfold write.
    destruct (write_loop_inside address 0 data vm Hwf Ha) as [[_ E]|(j & _ & _ & _ & E)];
      [lia|lia|..]; rewrite E; by eexists.
  - intros (Ha & Hn & Hend). unfold read.
    destruct (read_loop_cases address 0 (Z.to_nat size) vm Hwf Ha) as [[_ E]|[_ E]];
      [lia|lia|..]; rewrite E; by eexists.
  - intros (Ha & Hn & Hend). unfold print_memory.
    rewrite print_memory_loop_inside by (done || lia). by eexists.
Qed.



(** ** What every run inside the address space keeps *)

Lemma run_ops_forward ops vm vm' :
  run_ops ops vm = Some vm' -> forward_only vm vm'.
Proof.
  revert vm. induction ops as [|op rest IH]; intros vm Hrun.
  - cbn in Hrun. simplify_eq. apply forward_only_refl.
  - cbn [run_ops] in Hrun. destruct (run_op op vm) as [vm1|] eqn:Hop; [|done].
    eapply forward_only_trans; [by eapply run_op_forward|by apply IH].
Qed.

Lemma VirtualMemory_new_pages : pages_below_cursor VirtualMemory_new.
Proof.
  intros p Hp. unfold VirtualMemory_new in *. cbn [page_table next_free_page] in *.
  rewrite length_replicate in Hp. rewrite lookup_replicate_2 by done.
  by rewrite bool_decide_eq_false_2 by lia.
Qed.

Lemma flag_pages_below_cursor n vm :
  vm_wf vm -> next_free_page vm + Z.of_nat n <= NUM_PAGES ->
  pages_below_cursor vm -> pages_below_cursor (flag_pages n vm).
Proof.
  intros [_ Hlen Hc] Hn Hinv p Hp.
  rewrite flag_pages_length in Hp. rewrite flag_pages_cursor.
  destruct (decide (Z.of_nat p < next_free_page vm)) as [Hlt|Hge].
  - rewrite flag_pages_other by lia. rewrite Hinv by done.
    by rewrite !bool_decide_eq_true_2 by lia.
  - destruct (decide (Z.of_nat p < next_free_page vm + Z.of_nat n)) as [Hin|Hout].
    + rewrite bool_decide_eq_true_2 by done.
      rewrite <- (Nat2Z.id p). apply flag_pages_flagged; lia.
    + rewrite flag_pages_other by lia. rewrite Hinv by done.
      by rewrite !bool_decide_eq_false_2 by lia.
Qed.

Lemma run_op_pages op vm o :
  vm_wf vm -> pages_below_cursor vm -> run_op op vm = Some o ->
  pages_below_cursor o.
Proof.
  intros Hwf Hinv. destruct op as [size|address data|address size|start size];
    cbn [run_op]; intros Ho.
  - pose proof (pages_needed_range size).
    destruct (allocate_cases size vm Hwf) as [[Hn E]|[Hn E]];
      rewrite E in Ho; cbn in Ho; simplify_eq.
    + apply flag_pages_below_cursor; [done|lia|done].
    + pose proof (wf_cursor _ Hwf). apply flag_pages_below_cursor; [done|lia|done].
  - apply write_loop_frame in Ho as (Hp & Hc & _).
    intros p Hlt. rewrite Hp, Hc in *. by apply Hinv.
  - by apply read_loop_const in Ho as ->.
  - by apply print_memory_loop_const in Ho as ->.
Qed.

Lemma run_ops_pages ops vm vm' :
  vm_wf vm -> pages_below_cursor vm -> run_ops ops vm = Some vm' ->
  pages_below_cursor vm'.
Proof.
  revert vm. induction ops as [|op rest IH]; intros vm Hwf Hinv Hrun.
  - cbn in Hrun. by simplify_eq.
  - cbn [run_ops] in Hrun. destruct (run_op op vm) as [vm1|] eqn:Hop; [|done].
    eapply IH; [by eapply run_op_wf|by eapply run_op_pages|done].
Qed.

Lemma run_ops_inside ops vm :
  vm_wf vm -> Forall op_inside ops -> exists vm', run_ops ops vm = Some vm'.
Proof.
  intros Hwf Hops. revert vm Hwf.
  induction Hops as [|op rest Hop _ IH]; intros vm Hwf; [by eexists|].
  cbn [run_ops]. destruct (run_op_inside op vm Hwf Hop) as [o E]. rewrite E.
  apply IH. by eapply run_op_wf.
Qed.

(** Every run of operations whose ranges lie inside the address space has a
    state, and keeps the allocation forward-only. *)
Lemma forward_only_inside ops vm :
  vm_wf vm -> Forall op_inside ops ->
  exists vm', run_ops ops vm = Some vm' /\ forward_only vm vm'.
Proof.
  intros Hwf Hops. destruct (run_ops_inside ops vm Hwf Hops) as [vm' E].
  exists vm'. split; [done|]. by apply (run_ops_forward ops).
Qed.

(** X8. After any run of operations from the initial address space whose
    [write], [read] and [print_memory] ranges lie inside the address space,
    the flagged pages are exactly the pages below the cursor: an address
    inside the address space is on an allocated page exactly when it is
    below [next_free_page * PAGE_SIZE]. *)
Theorem allocated_iff_below_cursor ops :
  Forall op_inside ops ->
  exists vm, run_ops ops VirtualMemory_new = Some vm /\
    forall a, 0 <= a < MEMORY_SIZE ->
      allocated vm a <-> a < next_free_page vm * PAGE_SIZE.
Proof.
  intros Hops.
  destruct (run_ops_inside ops _ VirtualMemory_new_wf Hops) as [vm Hrun].
  exists vm. split; [done|]. intros a Ha.
  pose proof (run_ops_wf _ _ _ VirtualMemory_new_wf Hrun) as Hwf.
  pose proof (run_ops_pages _ _ _ VirtualMemory_new_wf VirtualMemory_new_pages Hrun)
    as Hinv.
  destruct Hwf as [_ Hlen Hc]. unfold allocated.
  assert (Hp : 0 <= a / PAGE_SIZE < NUM_PAGES).
  { unfold MEMORY_SIZE, PAGE_SIZE, NUM_PAGES in *. Z.div_mod_to_equations. lia. }
  rewrite Hinv by lia. rewrite Z2Nat.id by lia.
  unfold PAGE_SIZE in *. case_bool_decide as Hd.
  - split; [intros _|done]. Z.div_mod_to_equations. lia.
  - split; [done|]. intros Hlt. exfalso. apply Hd. Z.div_mod_to_equations. lia.
Qed.

Lemma allocated_iff_below_cursor_witness :
  let ops := [OpAllocate 300; OpWrite 600 [1]; OpAllocate 1; OpRead 0 4] in
  let vm := flag_pages 3 VirtualMemory_new in
  run_ops ops VirtualMemory_new = Some vm /\
  allocated vm 767 /\ ~ allocated vm 768.
Proof.
  intros ops vm.
  assert (Hrun : run_ops ops VirtualMemory_new = Some vm) by by_compute.
  split; [exact Hrun|].
  assert (Hops : Forall op_inside ops).
  { repeat constructor; cbn [length]; unfold MEMORY_SIZE, PAGE_SIZE, NUM_PAGES; lia. }
  destruct (allocated_iff_below_cursor ops Hops) as (vm' & Hrun' & Hiff).
  rewrite Hrun in Hrun'. injection Hrun' as <-.
  split.
  - apply (proj2 (Hiff 767 ltac:(vm_compute; split; [discriminate|reflexivity]))).
    vm_compute. reflexivity.
  - intros H.
    apply (proj1 (Hiff 768 ltac:(vm_compute; split; [discriminate|reflexivity]))) in H.
    vm_compute in H. discriminate.
Defined.

(** X9. The pages that [allocate] returns can be written: a [write] at the
    returned address of up to [pages_needed * PAGE_SIZE] bytes, so of up to
    [size] bytes, returns. *)
Theorem allocated_region_is_writable size vm a vm' data :
  vm_wf vm ->
  allocate size vm = Ret a vm' ->
  Z.of_nat (length data) <= pages_needed size * PAGE_SIZE ->
  (exists vm'', write a data vm' = Ret tt vm'') /\
  (0 <= size <= 2 ^ 64 - PAGE_SIZE -> size <= pages_needed size * PAGE_SIZE).
Proof.
  intros Hwf Halloc Hlen. split.
  - pose proof (pages_needed_range size) as Hpn.
    destruct (allocate_cases size vm Hwf) as [[Hn E]|[Hn E]];
      rewrite E in Halloc; simplify_eq.
    pose proof (flag_pages_wf (Z.to_nat (pages_needed size)) vm Hwf ltac:(lia)) as Hwf'.
    destruct Hwf as [_ Hl Hc].
    destruct (write_loop_inside (next_free_page vm * PAGE_SIZE) 0 data
                (flag_pages (Z.to_nat (pages_needed size)) vm))
      as [[_ E']|(j & Hj & _ & Hbad & _)]; [done|..].
    + unfold PAGE_SIZE. lia.
    + lia.
    + unfold MEMORY_SIZE, NUM_PAGES, PAGE_SIZE in *. nia.
    + unfold write. eauto.
    + exfalso. apply Hbad. unfold allocated. apply flag_pages_flagged; [lia| |].
      * unfold PAGE_SIZE in *. Z.div_mod_to_equations. nia.
      * unfold NUM_PAGES, PAGE_SIZE in *.
        assert (0 <= (next_free_page vm * 256 + 0 + j) / 256 < 256)
          by (Z.div_mod_to_equations; nia). lia.
  - intros Hs. rewrite pages_needed_ceil by done. unfold ceil_div, PAGE_SIZE.
    destruct (Z.eqb_spec (size mod 256) 0); Z.div_mod_to_equations; lia.
Qed.

Lemma allocated_region_is_writable_witness :
  let vm := state_after (allocate 300) VirtualMemory_new in
  exists vm'', write 512 (replicate 257 7) (state_after (allocate 257) vm) = Ret tt vm''.
Proof.
  intros vm.
  assert (Hwf : vm_wf vm).
  { split; vm_compute; [reflexivity|reflexivity|split; discriminate]. }
  assert (Ha : allocate 257 vm = Ret 512 (state_after (allocate 257) vm)) by by_compute.
  apply (allocated_region_is_writable 257 vm 512 _ (replicate 257 7) Hwf Ha).
  vm_compute. discriminate.
Defined.

(** X10. Regions do not overlap: an address returned by a later [allocate]
    lies at or above the end of the pages of every earlier one, whatever
    operations with ranges inside the address space ran in between. *)
Theorem allocations_do_not_overlap s1 s2 ops vm vm1 a1 :
  vm_wf vm ->
  allocate s1 vm = Ret a1 vm1 ->
  Forall op_inside ops ->
  exists vm2, run_ops ops vm1 = Some vm2 /\
    forall a2 vm3, allocate s2 vm2 = Ret a2 vm3 ->
      a1 + pages_needed s1 * PAGE_SIZE <= a2.
Proof.
  intros Hwf H1 Hops.
  assert (Hwf1 : vm_wf vm1) by (eapply allocate_wf; [done|by rewrite H1]).
  destruct (run_ops_inside ops vm1 Hwf1 Hops) as [vm2 Hrun].
  exists vm2. split; [done|]. intros a2 vm3 H2.
  pose proof (run_ops_wf _ _ _ Hwf1 Hrun) as Hwf2.
  pose proof (run_ops_forward _ _ _ Hrun) as [Hfw _].
  destruct (allocate_cases s1 vm Hwf) as [[_ E]|[_ E]]; rewrite E in H1; simplify_eq.
  destruct (allocate_cases s2 vm2 Hwf2) as [[_ E2]|[_ E2]]; rewrite E2 in H2; simplify_eq.
  rewrite flag_pages_cursor in Hfw. pose proof (pages_needed_range s1).
  unfold PAGE_SIZE. lia.
Qed.

Lemma allocations_do_not_overlap_witness :
  let vm1 := state_after (allocate 300) VirtualMemory_new in
  let vm2 := state_after (write 0 [1; 2]) vm1 in
  let vm3 := state_after (allocate 1) vm2 in
  allocate 1 vm2 = Ret 512 vm3 /\
  0 + pages_needed 300 * PAGE_SIZE <= 512.
Proof.
  intros vm1 vm2 vm3.
  assert (Hwf : vm_wf VirtualMemory_new).
  { split; vm_compute; [reflexivity|reflexivity|split; discriminate]. }
  assert (H1 : allocate 300 VirtualMemory_new = Ret 0 vm1) by by_compute.
  assert (Hrun : run_ops [OpWrite 0 [1; 2]] vm1 = Some vm2) by by_compute.
  assert (H2 : allocate 1 vm2 = Ret 512 vm3) by by_compute.
  split; [exact H2|].
  assert (Hops : Forall op_inside [OpWrite 0 [1; 2]]).
  { repeat constructor; cbn [length]; unfold MEMORY_SIZE, PAGE_SIZE, NUM_PAGES; lia. }
  destruct (allocations_do_not_overlap 300 1 [OpWrite 0 [1; 2]] VirtualMemory_new
              vm1 0 Hwf H1 Hops) as (vm2' & Hrun' & Hle).
  rewrite Hrun in Hrun'. injection Hrun' as <-.
  exact (Hle 512 vm3 H2).
Defined.

(** * Further properties of libraries and executables *)

Lemma allocate_one_page vm :
  vm_wf vm ->
  (next_free_page vm < NUM_PAGES /\
   allocate PAGE_SIZE vm = Ret (next_free_page vm * PAGE_SIZE) (flag_pages 1 vm)) \/
  (next_free_page vm = NUM_PAGES /\ allocate PAGE_SIZE vm = Throw OutOfMemory vm).
Proof.
  intros Hwf. assert (Hpn : pages_needed PAGE_SIZE = 1) by (vm_compute; reflexivity).
  destruct (allocate_cases PAGE_SIZE vm Hwf) as [[Hn E]|[Hn E]];
    rewrite Hpn in *; rewrite E.
  - left. split; [lia|]. reflexivity.
  - right. destruct Hwf as [_ _ Hc]. assert (Heq : next_free_page vm = NUM_PAGES) by lia.
    split; [done|]. rewrite Heq, Z.sub_diag. reflexivity.
Qed.

(** X11. Constructing a library or an executable takes exactly one page:
    the object gets the address of the page at the cursor as its base, an
    empty table and the next free reference.  With no page left the
    constructor throws OutOfMemory; no object is made and the world is as
    before. *)
Theorem construction_takes_one_page name w :
  vm_wf (vm w) ->
  (next_free_page (vm w) < NUM_PAGES /\
   Library_new name w =
     Ret (length (libs w))
         (push_lib {| lib_name := name;
                      lib_base_address := next_free_page (vm w) * PAGE_SIZE;
                      symbols := ∅ |}
                   (set_vm (flag_pages 1 (vm w)) w)) /\
   Executable_new name w =
     Ret (length (exes w))
         (push_exe {| exe_name := name;
                      exe_base_address := next_free_page (vm w) * PAGE_SIZE;
                      dependencies := []; relocations := [];
                      symbolAddresses := ∅ |}
                   (set_vm (flag_pages 1 (vm w)) w))) \/
  (next_free_page (vm w) = NUM_PAGES /\
   Library_new name w = Throw OutOfMemory w /\
   Executable_new name w = Throw OutOfMemory w).
Proof.
  intros Hwf. unfold Library_new, Executable_new, bind, get, modify, ret, on_vm, zoom.
  destruct (allocate_one_page (vm w) Hwf) as [[Hlt E]|[Heq E]]; rewrite E.
  - left. done.
  - right. by rewrite set_vm_id.
Qed.

Lemma construction_takes_one_page_witness :
  let w := state_after (Library_new "liba.so") World_new in
  Library_new "libb.so" w =
    Ret 1%nat
        (push_lib {| lib_name := "libb.so"; lib_base_address := 256; symbols := ∅ |}
                  (set_vm (flag_pages 1 (vm w)) w)).
Proof.
  intros w.
  assert (Hwf : vm_wf (vm w)).
  { split; vm_compute; [reflexivity|reflexivity|split; discriminate]. }
  destruct (construction_takes_one_page "libb.so" w Hwf) as [(_ & E & _)|(Hfull & _)].
  - exact E.
  - vm_compute in Hfull. discriminate.
Defined.

(** X12. [addSymbol(n, off)] enters the symbol before it writes: whether the
    call returns or faults, [findSymbol(n)] then gives the symbol at
    [base + off], replacing an earlier symbol of that name; the other
    symbols of the library, its name and base, the other libraries and the
    executables are as before. *)
Theorem addSymbol_registers_before_write lib n off w w' :
  final_state (addSymbol lib n off w) = Some w' ->
  exists l l',
    libs w !! lib = Some l /\ libs w' !! lib = Some l' /\
    findSymbol l' n = Some (mkSymbol n (wrap64 (lib_base_address l + off))) /\
    (forall n', n' <> n -> findSymbol l' n' = findSymbol l n') /\
    lib_name l' = lib_name l /\ lib_base_address l' = lib_base_address l /\
    (forall r, r <> lib -> libs w' !! r = libs w !! r) /\
    length (libs w') = length (libs w) /\
    exes w' = exes w.
Proof.
  intros Ho.
  destruct (libs w !! lib) as [l|] eqn:Hl;
    [|unfold addSymbol, bind, deref_lib in Ho; by rewrite Hl in Ho].
  rewrite (addSymbol_unfold _ _ _ _ _ Hl) in Ho.
  set (address := wrap64 (lib_base_address l + off)) in *.
  assert (Hw' : libs w' = <[lib := with_symbol n address l]> (libs w) /\
                exes w' = exes w).
  { unfold on_vm, zoom in Ho.
    destruct (write _ _ _) as [a v'|e v'|]; cbn in Ho; by simplify_eq. }
  destruct Hw' as [Hlibs Hexes].
  exists l, (with_symbol n address l). rewrite Hlibs.
  split; [done|]. split; [apply list_lookup_insert_eq; by eapply lookup_lt_Some|].
  split; [apply lookup_insert_eq|].
  split; [intros n' Hn'; by apply lookup_insert_ne|].
  split; [done|]. split; [done|].
  split; [intros r Hr; by apply list_lookup_insert_ne|].
  split; [apply length_insert|done].
Qed.

Lemma addSymbol_registers_before_write_witness :
  let w := state_after (Library_new "libmath.so") World_new in
  let w1 := state_after (addSymbol 0%nat "sqrt" 0x10) w in
  let w2 := state_after (addSymbol 0%nat "sqrt" 0x100) w1 in
  thrown (addSymbol 0%nat "sqrt" 0x100 w1) = Some SegFaultWrite /\
  exists l l',
    libs w1 !! 0%nat = Some l /\ libs w2 !! 0%nat = Some l' /\
    findSymbol l "sqrt" = Some (mkSymbol "sqrt" 0x10) /\
    findSymbol l' "sqrt" = Some (mkSymbol "sqrt" (wrap64 (lib_base_address l + 0x100))).
Proof.
  intros w w1 w2. split; [vm_compute; reflexivity|].
  assert (Ho : final_state (addSymbol 0%nat "sqrt" 0x100 w1) = Some w2) by by_compute.
  destruct (addSymbol_registers_before_write 0%nat "sqrt" 0x100 w1 w2 Ho)
    as (l & l' & Hl & Hl' & Hf & _).
  exists l, l'. split; [exact Hl|]. split; [exact Hl'|]. split; [|exact Hf].
  assert (Hl0 : libs w1 !! 0%nat =
                Some {| lib_name := "libmath.so"; lib_base_address := 0;
                        symbols := {[ "sqrt" := mkSymbol "sqrt" 0x10 ]} |})
    by by_compute.
  pose proof (eq_trans (eq_sym Hl) Hl0) as Heq. injection Heq as ->.
  vm_compute. reflexivity.
Defined.

(** * Further properties of the linker *)

Lemma loadLibrary_Ret O lib s l :
  libs (world s) !! lib = Some l ->
  loadLibrary O lib s =
    Ret tt (set_registry
              (um_assign O (lib_name l) lib (loadedLibraries (linker s))) s).
Proof.
  intros Hl. unfold loadLibrary, bind, modify.
  by rewrite (in_world_deref_lib _ _ _ Hl).
Qed.

(** X13. [loadLibrary] makes the registry map the name of the library to
    that library and leaves every other name as it was, whatever order the
    registry iterates in; the keys stay distinct.  It throws nothing, and
    its behaviour is undefined only for a pointer that owns no library. *)
Theorem loadLibrary_registers O lib s :
  NoDup (loadedLibraries (linker s)).*1 ->
  (forall l, libs (world s) !! lib = Some l ->
     exists reg',
       loadLibrary O lib s = Ret tt (set_registry reg' s) /\
       NoDup reg'.*1 /\
       um_find (lib_name l) reg' = Some lib /\
       forall k, k <> lib_name l ->
                 um_find k reg' = um_find k (loadedLibraries (linker s))) /\
  (libs (world s) !! lib = None -> loadLibrary O lib s = Undefined).
Proof.
  intros Hnd. split.
  - intros l Hl.
    exists (um_assign O (lib_name l) lib (loadedLibraries (linker s))).
    split; [by apply loadLibrary_Ret|]. split; [by apply um_assign_NoDup|].
    split; [by apply um_assign_find|].
    intros k Hk. by apply um_assign_find_ne.
  - intros Hl. unfold loadLibrary, bind, in_world, zoom, deref_lib. by rewrite Hl.
Qed.

Lemma loadLibrary_registers_witness :
  let s := state_after (loadLibrary newest_first 0%nat)
             (fresh_linker (state_after colliding_libraries World_new)) in
  exists reg',
    loadLibrary newest_first 1%nat s = Ret tt (set_registry reg' s) /\
    NoDup reg'.*1 /\
    um_find "libb.so" reg' = Some 1%nat /\
    forall k, k <> "libb.so" ->
              um_find k reg' = um_find k (loadedLibraries (linker s)).
Proof.
  intros s.
  assert (Hnd : NoDup (loadedLibraries (linker s)).*1) by by_compute.
  assert (Hl : libs (world s) !! 1%nat =
               Some {| lib_name := "libb.so"; lib_base_address := 256;
                       symbols := {[ "h" := mkSymbol "h" 288 ]} |})
    by by_compute.
  exact (proj1 (loadLibrary_registers newest_first 1%nat s Hnd) _ Hl).
Defined.

Lemma set_registry_id s : set_registry (loadedLibraries (linker s)) s = s.
Proof. by destruct s as [[]]. Qed.

Lemma load_dependencies_extends O deps s :
  NoDup (loadedLibraries (linker s)).*1 ->
  Forall (fun dep => is_Some (libs (world s) !! dep)) deps ->
  exists reg1,
    load_dependencies O deps s = Ret tt (set_registry reg1 s) /\
    NoDup reg1.*1 /\
    (forall k v, um_find k (loadedLibraries (linker s)) = Some v ->
                 um_find k reg1 = Some v) /\
    (forall k v, um_find k reg1 = Some v ->
       um_find k (loadedLibraries (linker s)) = Some v \/
       (v ∈ deps /\ lib_name <$> libs (world s) !! v = Some k)) /\
    (forall dep, dep ∈ deps ->
       exists l, libs (world s) !! dep = Some l /\
                 is_Some (um_find (lib_name l) reg1)).
Proof.
  revert s. induction deps as [|dep rest IH]; intros s Hnd Hdeps.
  - exists (loadedLibraries (linker s)). split.
    + cbn. unfold ret. by rewrite set_registry_id.
    + split; [done|]. split; [done|]. split; [by left|].
      intros dep Hin. by apply elem_of_nil in Hin.
  - apply Forall_cons in Hdeps as [[l Hl] Hrest].
    cbn [load_dependencies]. unfold bind, get.
    rewrite (in_world_deref_lib _ _ _ Hl).
    destruct (um_find (lib_name l) (loadedLibraries (linker s))) as [v|] eqn:Hf.
    + unfold ret. destruct (IH s Hnd Hrest) as (reg1 & E & Hnd1 & Hold & Hnew & Hall).
      exists reg1. split; [done|]. split; [done|]. split; [done|]. split.
      * intros k v' Hk. destruct (Hnew k v' Hk) as [?|[Hin ?]]; [by left|].
        right. split; [|done]. apply elem_of_cons. by right.
      * intros d Hd. apply elem_of_cons in Hd as [->|Hd]; [|by apply Hall].
        exists l. split; [done|]. exists v. by apply Hold.
    + rewrite (loadLibrary_Ret _ _ _ _ Hl).
      set (reg' := um_assign O (lib_name l) dep (loadedLibraries (linker s))).
      assert (Hnd' : NoDup reg'.*1) by by apply um_assign_NoDup.
      assert (Hfind : um_find (lib_name l) reg' = Some dep) by by apply um_assign_find.
      assert (Hother : forall k, k <> lib_name l ->
                um_find k reg' = um_find k (loadedLibraries (linker s)))
        by (intros k Hk; by apply um_assign_find_ne).
      destruct (IH (set_registry reg' s) Hnd' Hrest)
        as (reg1 & E & Hnd1 & Hold & Hnew & Hall).
      exists reg1. split; [exact E|]. split; [done|]. split; [|split].
      * intros k v Hk. apply Hold. cbn.
        rewrite Hother; [done|]. intros ->. congruence.
      * intros k v Hk. cbn in Hnew. destruct (Hnew k v Hk) as [Hk'|[Hin ?]].
        -- destruct (decide (k = lib_name l)) as [->|Hne].
           ++ right. rewrite Hfind in Hk'. simplify_eq.
              split; [apply elem_of_cons; by left|]. cbn in *. by rewrite Hl.
           ++ left. by rewrite <- Hother.
        -- right. split; [apply elem_of_cons; by right|done].
      * intros d Hd. apply elem_of_cons in Hd as [->|Hd]; [|by apply Hall].
        exists l. split; [done|]. exists dep. apply Hold. exact Hfind.
Qed.

(** X14. The dependency phase of [linkExecutable] returns when every
    dependency is a live library.  It leaves the world alone and every
    registered name with its library, so that of two libraries of one name
    the one met first stays; every entry it adds is a dependency under its
    own name; afterwards the name of every dependency is registered, and the
    keys are distinct. *)
Theorem load_dependencies_registers_missing O deps s :
  NoDup (loadedLibraries (linker s)).*1 ->
  Forall (fun dep => is_Some (libs (world s) !! dep)) deps ->
  exists reg1,
    load_dependencies O deps s = Ret tt (set_registry reg1 s) /\
    NoDup reg1.*1 /\
    (forall k v, um_find k (loadedLibraries (linker s)) = Some v ->
                 um_find k reg1 = Some v) /\
    (forall k v, um_find k reg1 = Some v ->
       um_find k (loadedLibraries (linker s)) = Some v \/
       (v ∈ deps /\ lib_name <$> libs (world s) !! v = Some k)) /\
    (forall dep, dep ∈ deps ->
       exists l, libs (world s) !! dep = Some l /\
                 is_Some (um_find (lib_name l) reg1)).
Proof. apply load_dependencies_extends. Qed.

Lemma load_dependencies_registers_missing_witness :
  let w := state_after same_name_libraries World_new in
  let s := state_after (loadLibrary oldest_first 0%nat) (fresh_linker w) in
  exists reg1,
    load_dependencies oldest_first [1%nat; 0%nat] s = Ret tt (set_registry reg1 s) /\
    um_find "libm.so" reg1 = Some 0%nat.
Proof.
  intros w s.
  assert (Hnd : NoDup (loadedLibraries (linker s)).*1) by by_compute.
  assert (Hdeps : Forall (fun dep => is_Some (libs (world s) !! dep)) [1%nat; 0%nat]).
  { repeat constructor; vm_compute; eauto. }
  destruct (load_dependencies_registers_missing oldest_first [1%nat; 0%nat] s Hnd Hdeps)
    as (reg1 & E & _ & Hold & _).
  exists reg1. split; [exact E|]. apply Hold. vm_compute. reflexivity.
Defined.

Lemma record_all_lookup (f : string -> option Z) m (l : list (Relocation * Z)) n :
  Forall (fun p => f (symbolName p.1) = Some p.2) l ->
  record_all m l !! n =
    if decide (n ∈ (fun p => symbolName p.1) <$> l) then f n else m !! n.
Proof.
  revert m. induction l as [|[r a] l IH]; intros m Hl.
  - cbn. case_decide as Hin; [by apply elem_of_nil in Hin|done].
  - apply Forall_cons in Hl as [Hr Hl]. cbn [fst snd] in Hr.
    cbn [record_all foldl fst snd]. fold (record_all (<[symbolName r := a]> m) l).
    rewrite IH by done. rewrite fmap_cons. cbn [fst].
    destruct (decide (n ∈ (fun p => symbolName p.1) <$> l)) as [Hin|Hout].
    + rewrite decide_True; [done|]. apply elem_of_cons. by right.
    + destruct (decide (n = symbolName r)) as [->|Hne].
      * rewrite decide_True by (apply elem_of_cons; by left).
        by rewrite lookup_insert_eq.
      * rewrite decide_False
          by (intros [?|?]%elem_of_cons; done).
        by rewrite lookup_insert_ne.
Qed.

Lemma linkExecutable_Ret_inv O exe e s s' :
  exes (world s) !! exe = Some e ->
  linkExecutable O exe s = Ret tt s' ->
  exists s1,
    load_dependencies O (dependencies e) s = Ret tt s1 /\
    world s1 = world s /\
    relocate_all exe (relocations e) s1 = Ret tt s'.
Proof.
  intros He Hlink. unfold linkExecutable, bind in Hlink.
  rewrite (in_world_deref_exe _ _ _ He) in Hlink.
  destruct (load_dependencies O (dependencies e) s) as [[] s1| |] eqn:Hdeps; [|done..].
  exists s1. split; [done|]. split; [by eapply load_dependencies_world|done].
Qed.

(** X15. When [linkExecutable] returns, [symbolAddresses] holds for the
    symbol of every relocation the address found in the loaded libraries;
    the entries of other names are the ones the executable had, and the
    libraries are untouched. *)
Theorem linkExecutable_records_every_relocation O exe e s s' :
  exes (world s) !! exe = Some e ->
  linkExecutable O exe s = Ret tt s' ->
  exists e',
    exes (world s') !! exe = Some e' /\
    (forall rel, rel ∈ relocations e ->
       exists a, resolved_address s' (symbolName rel) = Some a /\
                 symbolAddresses e' !! symbolName rel = Some a) /\
    (forall n, n ∉ symbolName <$> relocations e ->
       symbolAddresses e' !! n = symbolAddresses e !! n) /\
    relocations e' = relocations e /\
    dependencies e' = dependencies e /\
    exe_base_address e' = exe_base_address e /\
    libs (world s') = libs (world s).
Proof.
  intros He Hlink.
  destruct (linkExecutable_Ret_inv _ _ _ _ _ He Hlink) as (s1 & Hdeps & Hw1 & Hrel).
  assert (He1 : exes (world s1) !! exe = Some e) by by rewrite Hw1.
  destruct (relocate_all_Ret _ _ _ _ _ He1 Hrel)
    as (Hl & Hlibs & addrs & Hall & Hexes & _).
  exists (with_symbolAddresses
            (record_all (symbolAddresses e) (zip (relocations e) addrs)) e).
  split; [rewrite Hexes; apply list_lookup_insert_eq; by eapply lookup_lt_Some|].
  assert (Hlen : length (relocations e) = length addrs) by by eapply Forall2_length.
  assert (Hzip : Forall (fun p => resolved_address s1 (symbolName p.1) = Some p.2)
                        (zip (relocations e) addrs)).
  { clear -Hall. induction Hall; cbn; constructor; done. }
  assert (Hnames : (fun p : Relocation * Z => symbolName p.1) <$> zip (relocations e) addrs
                   = symbolName <$> relocations e).
  { rewrite names_of_entries, fst_zip; [done|lia]. }
  cbn [with_symbolAddresses symbolAddresses relocations dependencies exe_base_address].
  split; [|split; [|split; [done|split; [done|split; [done|congruence]]]]].
  - intros rel Hin.
    assert (Hn : symbolName rel ∈ symbolName <$> relocations e)
      by (apply list_elem_of_fmap; eauto).
    rewrite (record_all_lookup (resolved_address s1)) by done.
    rewrite Hnames, decide_True by done.
    rewrite (resolved_address_frame s1 s') by done.
    destruct (list_elem_of_lookup_1 _ _ Hin) as [i Hi].
    destruct (Forall2_lookup_l _ _ _ _ _ Hall Hi) as (a & _ & Ha).
    exists a. done.
  - intros n Hn. rewrite (record_all_lookup (resolved_address s1)) by done.
    by rewrite Hnames, decide_False.
Qed.

Lemma linkExecutable_records_every_relocation_witness :
  let w := state_after colliding_libraries World_new in
  let link := loadLibrary oldest_first 1%nat ;;; linkExecutable oldest_first 0%nat in
  let s := state_after (loadLibrary oldest_first 1%nat) (fresh_linker w) in
  let s' := state_after (linkExecutable oldest_first 0%nat) s in
  exists e',
    exes (world s') !! 0%nat = Some e' /\
    symbolAddresses e' !! "h" = Some 288.
Proof.
  intros w link s s'.
  assert (He : exes (world s) !! 0%nat =
               Some {| exe_name := "app"; exe_base_address := 768;
                       dependencies := [];
                       relocations := [mkRelocation "h" 0];
                       symbolAddresses := ∅ |}) by by_compute.
  assert (Hlink : linkExecutable oldest_first 0%nat s = Ret tt s') by by_compute.
  destruct (linkExecutable_records_every_relocation oldest_first 0%nat _ s s' He Hlink)
    as (e' & He' & Hall & _).
  exists e'. split; [exact He'|].
  destruct (Hall (mkRelocation "h" 0)) as (a & Ha & Hsym).
  { cbn. apply elem_of_cons. by left. }
  assert (Hr : resolved_address s' "h" = Some 288) by (vm_compute; reflexivity).
  cbn [symbolName] in Ha, Hsym. rewrite Hr in Ha. by injection Ha as <-.
Defined.

Lemma resolve_never_throws name (reg : registry) w err w' :
  resolve name reg w <> Throw err w'.
Proof.
  induction reg as [|[k r] rest IH]; [done|].
  cbn [resolve]. unfold bind, deref_lib.
  destruct (libs w !! r) as [l|]; [|done].
  by destruct (findSymbol l name).
Qed.

Lemma write_loop_throws address i data vm err vm' :
  write_loop address i data vm = Throw err vm' -> err = SegFaultWrite.
Proof.
  revert i vm. induction data as [|b rest IH]; intros i vm; [done|].
  cbn [write_loop]. unfold bind, get, modify, throw.
  destruct (page_table vm !! _) as [[]|]; [|by intros [= <- _]|done].
  destruct (decide _); [|done]. apply IH.
Qed.




(** ** The bytes that linking writes *)










(** * What every program keeps *)

Lemma same_layout_refl w : same_layout w w.
Proof. by repeat split. Qed.

Lemma same_layout_trans w1 w2 w3 :
  same_layout w1 w2 -> same_layout w2 w3 -> same_layout w1 w3.
Proof.
  intros (? & ? & ? & ? & ?) (? & ? & ? & ? & ?). repeat split; congruence.
Qed.

Lemma World_inv_layout w w' : World_inv w -> same_layout w w' -> World_inv w'.
Proof.
  intros [[Hm Hp Hc] Hpages Hb Hd Hn] (Hpt & Hnfp & Hlen & Hbases & _). split.
  - split; congruence.
  - intros p Hlt. rewrite Hpt, Hnfp in *. by apply Hpages.
  - by rewrite Hbases, Hnfp.
  - by rewrite Hbases.
  - by rewrite Hbases, Hnfp.
Qed.

Lemma entries_layout w w' (reg : registry) :
  lib_name <$> libs w' = lib_name <$> libs w ->
  Forall (fun p => lib_name <$> libs w !! p.2 = Some p.1) reg ->
  Forall (fun p => lib_name <$> libs w' !! p.2 = Some p.1) reg.
Proof.
  intros Hn HF. eapply Forall_impl; [exact HF|]. intros p Hp.
  by rewrite <- list_lookup_fmap, Hn, list_lookup_fmap.
Qed.

Lemma write_layout address data w o :
  final_state (on_vm (write address data) w) = Some o -> same_layout w o.
Proof.
  unfold on_vm, zoom. intros Ho.
  assert (exists v, final_state (write address data (vm w)) = Some v /\ o = set_vm v w)
    as (v & Hv & ->).
  { destruct (write address data (vm w)) as [a v|e v|]; cbn in *; simplify_eq; eauto. }
  apply write_loop_frame in Hv as (Hp & Hc & Hm). by repeat split.
Qed.

Lemma fmap_insert_same {A B} (f : A -> B) (l : list A) i x y :
  l !! i = Some x -> f y = f x -> f <$> <[i := y]> l = f <$> l.
Proof.
  intros Hx Hf. rewrite list_fmap_insert, Hf.
  apply list_insert_id. by rewrite list_lookup_fmap, Hx.
Qed.

Lemma set_lib_layout w lib l l' :
  libs w !! lib = Some l ->
  lib_name l' = lib_name l -> lib_base_address l' = lib_base_address l ->
  same_layout w (set_lib lib l' w).
Proof.
  intros Hl Hn Hb. unfold same_layout, bases. cbn [set_lib vm libs exes].
  by rewrite !(fmap_insert_same _ _ _ _ _ Hl).
Qed.

Lemma set_exe_layout w exe e e' :
  exes w !! exe = Some e ->
  exe_base_address e' = exe_base_address e ->
  same_layout w (set_exe exe e' w).
Proof.
  intros He Hb. unfold same_layout, bases. cbn [set_exe vm libs exes].
  by rewrite !(fmap_insert_same _ _ _ _ _ He).
Qed.

Lemma addSymbol_layout lib n off w o :
  final_state (addSymbol lib n off w) = Some o -> same_layout w o.
Proof.
  unfold addSymbol, bind, deref_lib, modify.
  destruct (libs w !! lib) as [l|] eqn:Hl; [|done]. intros Ho.
  eapply same_layout_trans; [|by eapply write_layout].
  by apply (set_lib_layout w lib l).
Qed.

Lemma addDependency_layout exe lib w o :
  final_state (addDependency exe lib w) = Some o -> same_layout w o.
Proof.
  unfold addDependency, bind, deref_exe, modify.
  destruct (exes w !! exe) as [e|] eqn:He; [|done]. cbn. intros [= <-].
  by apply (set_exe_layout w exe e).
Qed.

Lemma addRelocation_layout exe n off w o :
  final_state (addRelocation exe n off w) = Some o -> same_layout w o.
Proof.
  unfold addRelocation, bind, deref_exe, modify.
  destruct (exes w !! exe) as [e|] eqn:He; [|done]. cbn. intros [= <-].
  by apply (set_exe_layout w exe e).
Qed.

(** A world with one more object on the page at the cursor. *)
Lemma World_inv_new_page w w' :
  World_inv w ->
  next_free_page (vm w) < NUM_PAGES ->
  vm w' = flag_pages 1 (vm w) ->
  bases w' ≡ₚ next_free_page (vm w) * PAGE_SIZE :: bases w ->
  World_inv w'.
Proof.
  intros [Hwf Hpages Hb Hd Hn] Hlt Hvm Hbases.
  pose proof (wf_cursor _ Hwf) as Hc.
  assert (Hcur : next_free_page (vm w') = next_free_page (vm w) + 1).
  { rewrite Hvm, flag_pages_cursor. lia. }
  split.
  - rewrite Hvm. apply flag_pages_wf; [done|lia].
  - rewrite Hvm. apply flag_pages_below_cursor; [done|lia|done].
  - rewrite Hbases, Hcur. constructor.
    + split; [unfold PAGE_SIZE; lia|]. split; [by apply Z.mod_mul|].
      unfold PAGE_SIZE. lia.
    + eapply Forall_impl; [exact Hb|]. intros b (? & ? & ?).
      unfold PAGE_SIZE in *. lia.
  - rewrite Hbases. apply NoDup_cons. split; [|done].
    intros Hin. rewrite Forall_forall in Hb. apply Hb in Hin. lia.
  - rewrite Hbases, Hcur. cbn [length]. lia.
Qed.

Lemma Library_new_inv name w o :
  World_inv w -> final_state (Library_new name w) = Some o ->
  World_inv o /\ exists l, lib_name <$> libs o = (lib_name <$> libs w) ++ l.
Proof.
  intros Hinv. unfold Library_new, bind, get, modify, ret, on_vm, zoom.
  destruct (allocate_one_page (vm w) (inv_vm _ Hinv)) as [[Hlt E]|[Heq E]];
    rewrite E; cbn [final_state]; intros [= <-].
  - split.
    + apply (World_inv_new_page w); [done..|].
      unfold bases. cbn [push_lib set_vm libs exes vm].
      rewrite fmap_app. cbn [fmap list_fmap lib_base_address].
      rewrite <- (assoc_L (++)). cbn [app].
      by rewrite <- Permutation_middle.
    + exists [name]. cbn [push_lib set_vm libs]. by rewrite fmap_app.
  - rewrite set_vm_id. split; [done|]. exists []. by rewrite app_nil_r.
Qed.

Lemma Executable_new_inv name w o :
  World_inv w -> final_state (Executable_new name w) = Some o ->
  World_inv o /\ libs o = libs w.
Proof.
  intros Hinv. unfold Executable_new, bind, get, modify, ret, on_vm, zoom.
  destruct (allocate_one_page (vm w) (inv_vm _ Hinv)) as [[Hlt E]|[Heq E]];
    rewrite E; cbn [final_state]; intros [= <-].
  - split; [|done].
    apply (World_inv_new_page w); [done..|].
    unfold bases. cbn [push_exe set_vm libs exes vm].
    rewrite fmap_app. cbn [fmap list_fmap exe_base_address].
    rewrite (assoc_L (++)). by rewrite <- Permutation_cons_append.
  - rewrite set_vm_id. done.
Qed.

Lemma in_world_final {A} (m : Exec World A) s o :
  final_state (in_world m s) = Some o ->
  exists w', final_state (m (world s)) = Some w' /\ o = set_world w' s.
Proof.
  unfold in_world, zoom.
  destruct (m (world s)) as [a w'|e w'|]; cbn; intros; simplify_eq; eauto.
Qed.

Lemma Linking_inv_layout s w' :
  Linking_inv s -> same_layout (world s) w' -> Linking_inv (set_world w' s).
Proof.
  intros [Hw Hk He] Hlay. split; cbn [set_world world linker].
  - by eapply World_inv_layout.
  - done.
  - eapply entries_layout; [|done]. by destruct Hlay as (_ & _ & _ & _ & ?).
Qed.

Lemma um_replace_Forall (P : string * LibRef -> Prop) k v (l : registry) :
  Forall P l -> P (k, v) -> Forall P (um_replace k v l).
Proof.
  intros Hl Hkv. induction Hl as [|[k' v'] l Hx Hl IH]; [constructor|].
  cbn [um_replace]. case_decide; [subst|]; by constructor.
Qed.

Lemma um_assign_Forall (P : string * LibRef -> Prop) O k v (l : registry) :
  Forall P l -> P (k, v) -> Forall P (um_assign O k v l).
Proof.
  intros Hl Hkv. unfold um_assign. destruct (um_find k l).
  - by apply um_replace_Forall.
  - rewrite (um_place_perm O k v l). by constructor.
Qed.

Lemma loadLibrary_inv O lib s o :
  Linking_inv s -> final_state (loadLibrary O lib s) = Some o -> Linking_inv o.
Proof.
  intros [Hw Hk He] Ho.
  destruct (libs (world s) !! lib) as [l|] eqn:Hl.
  - rewrite (loadLibrary_Ret _ _ _ _ Hl) in Ho. cbn in Ho. simplify_eq.
    split; cbn [set_registry world linker loadedLibraries].
    + done.
    + by apply um_assign_NoDup.
    + apply um_assign_Forall; [done|]. cbn. by rewrite Hl.
  - unfold loadLibrary, bind, in_world, zoom, deref_lib in Ho. by rewrite Hl in Ho.
Qed.

Lemma load_dependencies_inv O deps s o :
  Linking_inv s -> final_state (load_dependencies O deps s) = Some o ->
  Linking_inv o /\ world o = world s.
Proof.
  revert s. induction deps as [|dep rest IH]; intros s Hinv Ho.
  - cbn in Ho. by simplify_eq.
  - cbn [load_dependencies] in Ho. unfold bind, get, in_world, zoom, deref_lib in Ho.
    destruct (libs (world s) !! dep) as [d|] eqn:Hd; [|done].
    rewrite set_world_id in Ho.
    destruct (um_find (lib_name d) (loadedLibraries (linker s))).
    + unfold ret in Ho. by apply IH.
    + rewrite (loadLibrary_Ret _ _ _ _ Hd) in Ho.
      apply IH in Ho as [Hinv' Hw]; [by split|].
      apply (loadLibrary_inv O dep s); [done|].
      by rewrite (loadLibrary_Ret _ _ _ _ Hd).
Qed.

Lemma relocate_layout exe r s o :
  final_state (relocate exe r s) = Some o ->
  linker o = linker s /\ same_layout (world s) (world o).
Proof.
  unfold relocate, bind, get. unfold in_world at 1. unfold zoom.
  destruct (resolve _ _ (world s)) as [x w1|e0 w1|] eqn:Hres;
    [|by apply resolve_never_throws in Hres|done].
  apply resolve_Ret_state in Hres as Hw1. subst w1. rewrite set_world_id.
  destruct x as [[k sym]|].
  - unfold in_world at 1. unfold zoom, deref_exe.
    destruct (exes (world s) !! exe) as [e|] eqn:He; [|done].
    rewrite set_world_id.
    unfold in_world at 1. unfold zoom, modify.
    intros Ho. apply in_world_final in Ho as (w' & Hw' & ->).
    cbn [set_world world linker] in *. split; [done|].
    eapply same_layout_trans; [|by eapply write_layout].
    by apply (set_exe_layout _ exe e).
  - unfold throw. cbn. intros [= <-]. split; [done|apply same_layout_refl].
Qed.

Lemma relocate_all_layout exe rs s o :
  final_state (relocate_all exe rs s) = Some o ->
  linker o = linker s /\ same_layout (world s) (world o).
Proof.
  revert s. induction rs as [|r rest IH]; intros s Ho.
  - cbn in Ho. simplify_eq. split; [done|apply same_layout_refl].
  - cbn [relocate_all] in Ho. unfold bind in Ho.
    destruct (relocate exe r s) as [[] s1|e s1|] eqn:Hr; [| |done].
    + assert (Hr' : final_state (relocate exe r s) = Some s1) by by rewrite Hr.
      apply relocate_layout in Hr' as [Hl1 Hlay1].
      apply IH in Ho as [Hl Hlay]. split; [congruence|].
      by eapply same_layout_trans.
    + cbn in Ho. simplify_eq. apply (relocate_layout exe r). by rewrite Hr.
Qed.

Lemma Linking_inv_relocated s o :
  Linking_inv s -> linker o = linker s -> same_layout (world s) (world o) ->
  Linking_inv o.
Proof.
  intros Hinv Hl Hlay. destruct o as [lk w']. cbn in *. subst lk.
  by apply (Linking_inv_layout s w').
Qed.

Lemma linkExecutable_inv O exe s o :
  Linking_inv s -> final_state (linkExecutable O exe s) = Some o -> Linking_inv o.
Proof.
  intros Hinv. unfold linkExecutable, bind, in_world, zoom, deref_exe.
  destruct (exes (world s) !! exe) as [e|] eqn:He; [|done].
  rewrite set_world_id.
  destruct (load_dependencies O (dependencies e) s) as [[] s1|e0 s1|] eqn:Hdeps;
    [| |done].
  - assert (Hd : final_state (load_dependencies O (dependencies e) s) = Some s1)
      by by rewrite Hdeps.
    apply load_dependencies_inv in Hd as [Hinv1 _]; [|done].
    intros Ho. apply relocate_all_layout in Ho as [Hl Hlay].
    by apply (Linking_inv_relocated s1).
  - cbn. intros [= <-].
    apply (load_dependencies_inv O (dependencies e) s); [done|by rewrite Hdeps].
Qed.

Lemma World_new_inv : World_inv World_new.
Proof.
  split; cbn [World_new vm libs exes bases].
  - apply VirtualMemory_new_wf.
  - apply VirtualMemory_new_pages.
  - constructor.
  - constructor.
  - done.
Qed.

Lemma run_api_inv O op s o :
  Linking_inv s -> run_api O op s = Some o -> Linking_inv o.
Proof.
  intros Hinv. destruct op; cbn [run_api]; intros Ho.
  - apply in_world_final in Ho as (w' & Hw' & ->).
    destruct (Library_new_inv _ _ _ (inv_world _ Hinv) Hw') as [Hw (l & Hl)].
    destruct Hinv as [_ Hk He]. split; cbn [set_world world linker]; [done..|].
    eapply Forall_impl; [exact He|]. intros p Hp. cbn beta in Hp |- *.
    rewrite <- list_lookup_fmap, Hl. rewrite <- list_lookup_fmap in Hp.
    by apply lookup_app_l_Some.
  - apply in_world_final in Ho as (w' & Hw' & ->).
    apply Linking_inv_layout; [done|]. by eapply addSymbol_layout.
  - apply in_world_final in Ho as (w' & Hw' & ->).
    destruct (Executable_new_inv _ _ _ (inv_world _ Hinv) Hw') as [Hw Hl].
    destruct Hinv as [_ Hk He]. split; cbn [set_world world linker]; [done..|].
    by rewrite Hl.
  - apply in_world_final in Ho as (w' & Hw' & ->).
    apply Linking_inv_layout; [done|]. by eapply addDependency_layout.
  - apply in_world_final in Ho as (w' & Hw' & ->).
    apply Linking_inv_layout; [done|]. by eapply addRelocation_layout.
  - simplify_eq. split; cbn; [apply Hinv|constructor..].
  - by eapply loadLibrary_inv.
  - by eapply linkExecutable_inv.
Qed.

Lemma run_apis_inv O ops s s' :
  Linking_inv s -> run_apis O ops s = Some s' -> Linking_inv s'.
Proof.
  revert s. induction ops as [|op rest IH]; intros s Hinv Hrun.
  - cbn in Hrun. by simplify_eq.
  - cbn [run_apis] in Hrun. destruct (run_api O op s) as [s1|] eqn:Hop; [|done].
    eapply IH; [|done]. by eapply run_api_inv.
Qed.

Lemma fresh_linker_inv : Linking_inv (fresh_linker World_new).
Proof. split; cbn; [apply World_new_inv|constructor..]. Qed.

Lemma in_page_write w b off data :
  World_inv w -> b ∈ bases w ->
  0 <= off -> off + Z.of_nat (length data) <= PAGE_SIZE ->
  exists v', write (wrap64 (b + off)) data (vm w) = Ret tt v'.
Proof.
  intros [Hwf Hpages Hb _ _] Hin Hoff Hend.
  rewrite Forall_forall in Hb. destruct (Hb b Hin) as (Hb0 & Hmod & Hlt).
  destruct Hwf as [Hm Hl Hc]. unfold PAGE_SIZE, NUM_PAGES, MEMORY_SIZE in *.
  assert (Hb256 : b + 256 <= next_free_page (vm w) * 256)
    by (Z.div_mod_to_equations; lia).
  rewrite wrap64_small by lia. unfold write.
  destruct (write_loop_inside (b + off) 0 data (vm w))
    as [[_ E]|(j & Hj & _ & Hbad & _)];
    [by split|lia|lia|unfold MEMORY_SIZE, PAGE_SIZE, NUM_PAGES; lia|by eauto|].
  exfalso. apply Hbad. unfold allocated, PAGE_SIZE.
  assert (Hpage : 0 <= (b + off + 0 + j) / 256 < next_free_page (vm w))
    by (Z.div_mod_to_equations; lia).
  rewrite Hpages by lia. f_equal. apply bool_decide_eq_true_2. lia.
Qed.

Lemma resolve_defined name (reg : registry) w :
  Forall (fun p => lib_name <$> libs w !! p.2 = Some p.1) reg ->
  exists x, resolve name reg w = Ret x w.
Proof.
  induction 1 as [|[k r] reg Hk _ IH]; [by eexists|].
  cbn [resolve]. unfold bind, deref_lib. cbn [snd fst] in Hk.
  destruct (libs w !! r) as [l|]; [|done].
  destruct (findSymbol l name); [by eexists|exact IH].
Qed.

Lemma in_world_resolve name reg s x :
  resolve name reg (world s) = Ret x (world s) ->
  in_world (resolve name reg) s = Ret x s.
Proof. intros Hx. unfold in_world, zoom. by rewrite Hx, set_world_id. Qed.

Lemma load_dependencies_returns O deps s :
  Forall (fun dep => is_Some (libs (world s) !! dep)) deps ->
  exists s1, load_dependencies O deps s = Ret tt s1.
Proof.
  revert s. induction deps as [|dep rest IH]; intros s Hdeps; [by eexists|].
  apply Forall_cons in Hdeps as [[l Hl] Hrest].
  cbn [load_dependencies]. unfold bind, get.
  rewrite (in_world_deref_lib _ _ _ Hl).
  destruct (um_find _ _); [by apply IH|].
  rewrite (loadLibrary_Ret _ _ _ _ Hl). by apply IH.
Qed.

Lemma relocate_in_page exe r s e :
  Linking_inv s -> exes (world s) !! exe = Some e ->
  0 <= offset r <= PAGE_SIZE - 8 ->
  (exists s', relocate exe r s = Ret tt s') \/
  relocate exe r s = Throw (UnresolvedSymbol (symbolName r)) s.
Proof.
  intros [Hw Hk He] Hexe Hoff. unfold relocate, bind, get.
  destruct (resolve_defined (symbolName r) _ _ He) as [x Hx].
  rewrite (in_world_resolve _ _ _ _ Hx).
  destruct x as [[k sym]|]; [|by right].
  left. rewrite (in_world_deref_exe _ _ _ Hexe).
  unfold in_world, on_vm, zoom, modify. cbn [world set_world vm set_exe].
  destruct (in_page_write (world s) (exe_base_address e) (offset r)
              (le_bytes 8 (sym_address sym))) as [v' E];
    [done| |lia|rewrite le_bytes_length; lia|].
  - unfold bases. apply elem_of_app. right. apply list_elem_of_fmap.
    exists e. split; [done|]. by eapply list_elem_of_lookup_2.
  - rewrite E. eauto.
Qed.

Lemma relocate_all_in_page exe rs s e :
  Linking_inv s -> exes (world s) !! exe = Some e ->
  Forall (fun r => 0 <= offset r <= PAGE_SIZE - 8) rs ->
  (exists s', relocate_all exe rs s = Ret tt s') \/
  (exists r s', r ∈ rs /\
     relocate_all exe rs s = Throw (UnresolvedSymbol (symbolName r)) s').
Proof.
  intros Hinv Hexe Hrs. revert s e Hinv Hexe.
  induction Hrs as [|r rest Hr _ IH]; intros s e Hinv Hexe; [left; by eexists|].
  cbn [relocate_all]. unfold bind.
  destruct (relocate_in_page exe r s e Hinv Hexe Hr) as [[s1 E]|E]; rewrite E.
  - assert (Hfin : final_state (relocate exe r s) = Some s1) by by rewrite E.
    apply relocate_layout in Hfin as [Hl Hlay].
    destruct (relocate_Ret _ _ _ _ _ Hexe E) as (a & _ & _ & _ & Hexes & _).
    assert (Hexe1 : exes (world s1) !! exe =
                    Some (with_symbolAddress (symbolName r) a e)).
    { rewrite Hexes. apply list_lookup_insert_eq. by eapply lookup_lt_Some. }
    destruct (IH s1 _ (Linking_inv_relocated _ _ Hinv Hl Hlay) Hexe1)
      as [?|(r' & s' & Hin & E')]; [by left|].
    right. exists r', s'. split; [apply elem_of_cons; by right|done].
  - right. exists r, s. split; [apply elem_of_cons; by left|done].
Qed.

(** ** Programs whose calls stay inside the arrays *)

Lemma in_world_defined {A} (m : Exec World A) s w' :
  final_state (m (world s)) = Some w' ->
  final_state (in_world m s) = Some (set_world w' s).
Proof.
  unfold in_world, zoom. by destruct (m (world s)); cbn; intros; simplify_eq.
Qed.

Lemma Library_new_defined name w :
  vm_wf (vm w) -> exists o, final_state (Library_new name w) = Some o.
Proof.
  intros Hwf. unfold Library_new, bind, get, modify, ret, on_vm, zoom.
  destruct (allocate_one_page (vm w) Hwf) as [[_ E]|[_ E]]; rewrite E; by eexists.
Qed.

Lemma Executable_new_defined name w :
  vm_wf (vm w) -> exists o, final_state (Executable_new name w) = Some o.
Proof.
  intros Hwf. unfold Executable_new, bind, get, modify, ret, on_vm, zoom.
  destruct (allocate_one_page (vm w) Hwf) as [[_ E]|[_ E]]; rewrite E; by eexists.
Qed.

Lemma write_inside_defined base off data w :
  vm_wf (vm w) -> wrap64 (base + off) + Z.of_nat (length data) <= MEMORY_SIZE ->
  exists o, final_state (on_vm (write (wrap64 (base + off)) data) w) = Some o.
Proof.
  intros Hwf Hin. unfold on_vm, zoom, write.
  pose proof (wrap64_range (base + off)) as Hr.
  destruct (write_loop_inside (wrap64 (base + off)) 0 data (vm w) Hwf)
    as [[_ E]|(j & _ & _ & _ & E)]; [lia..| |]; rewrite E; by eexists.
Qed.

Lemma relocate_defined exe r s e :
  Linking_inv s -> exes (world s) !! exe = Some e ->
  inside (exe_base_address e) (offset r) ->
  exists o, final_state (relocate exe r s) = Some o.
Proof.
  intros [Hw Hk He] Hexe Hin. unfold relocate, bind, get.
  destruct (resolve_defined (symbolName r) _ _ He) as [x Hx].
  rewrite (in_world_resolve _ _ _ _ Hx).
  destruct x as [[k sym]|]; [|by eexists].
  rewrite (in_world_deref_exe _ _ _ Hexe).
  unfold in_world at 1. unfold zoom, modify. cbn [world set_world].
  set (w1 := set_exe exe _ (world s)).
  destruct (write_inside_defined (exe_base_address e) (offset r)
              (le_bytes 8 (sym_address sym)) w1) as [o Ho].
  - apply (inv_vm _ Hw).
  - rewrite le_bytes_length. exact Hin.
  - eexists. apply in_world_defined. cbn [world set_world]. exact Ho.
Qed.

Lemma relocate_all_defined exe rs s e :
  Linking_inv s -> exes (world s) !! exe = Some e ->
  Forall (fun r => inside (exe_base_address e) (offset r)) rs ->
  exists o, final_state (relocate_all exe rs s) = Some o.
Proof.
  intros Hinv Hexe Hrs. revert s e Hinv Hexe Hrs.
  induction rs as [|r rest IH]; intros s e Hinv Hexe Hrs; [by eexists|].
  apply Forall_cons in Hrs as [Hr Hrest].
  cbn [relocate_all]. unfold bind.
  destruct (relocate_defined exe r s e Hinv Hexe Hr) as [o Ho].
  destruct (relocate exe r s) as [[] s1|err s1|] eqn:E; [| |done].
  - assert (Hfin : final_state (relocate exe r s) = Some s1) by by rewrite E.
    apply relocate_layout in Hfin as [Hl Hlay].
    destruct (relocate_Ret _ _ _ _ _ Hexe E) as (a & _ & _ & _ & Hexes & _).
    assert (Hexe1 : exes (world s1) !! exe =
                    Some (with_symbolAddress (symbolName r) a e)).
    { rewrite Hexes. apply list_lookup_insert_eq. by eapply lookup_lt_Some. }
    apply (IH s1 _ (Linking_inv_relocated _ _ Hinv Hl Hlay) Hexe1). exact Hrest.
  - by eexists.
Qed.

Lemma run_api_defined O op s :
  Linking_inv s -> api_defined s op -> exists o, run_api O op s = Some o.
Proof.
  intros Hinv. pose proof (inv_vm _ (inv_world _ Hinv)) as Hwf.
  destruct op as [name|lib name off|name|exe lib|exe name off| |lib|exe];
    cbn [run_api api_defined].
  - intros _. destruct (Library_new_defined name (world s) Hwf) as [o Ho].
    eexists. by apply in_world_defined.
  - destruct (libs (world s) !! lib) as [l|] eqn:Hl; [|done]. intros Hin.
    destruct (write_inside_defined (lib_base_address l) off (le_bytes 8 dummy_func)
                (set_lib lib (with_symbol name (wrap64 (lib_base_address l + off)) l)
                         (world s))) as [o Ho].
    + exact Hwf.
    + rewrite le_bytes_length. exact Hin.
    + eexists. apply in_world_defined. rewrite (addSymbol_unfold _ _ _ _ _ Hl).
      exact Ho.
  - intros _. destruct (Executable_new_defined name (world s) Hwf) as [o Ho].
    eexists. by apply in_world_defined.
  - intros [[e He] _]. eexists. apply in_world_defined.
    unfold addDependency, bind, deref_exe, modify. rewrite He. reflexivity.
  - intros [e He]. eexists. apply in_world_defined.
    unfold addRelocation, bind, deref_exe, modify. rewrite He. reflexivity.
  - intros _. by eexists.
  - intros [l Hl]. rewrite (loadLibrary_Ret _ _ _ _ Hl). by eexists.
  - destruct (exes (world s) !! exe) as [e|] eqn:Hexe; [|done]. intros [Hdeps Hrs].
    unfold linkExecutable, bind. rewrite (in_world_deref_exe _ _ _ Hexe).
    destruct (load_dependencies_returns O _ _ Hdeps) as [s1 E]. rewrite E.
    assert (Hfin : final_state (load_dependencies O (dependencies e) s) = Some s1)
      by by rewrite E.
    apply load_dependencies_inv in Hfin as [Hinv1 Hw1]; [|done].
    apply (relocate_all_defined exe _ s1 e); [done|by rewrite Hw1|done].
Qed.

Lemma run_apis_defined O ops s :
  Linking_inv s -> program_defined O ops s ->
  exists s', run_apis O ops s = Some s' /\ Linking_inv s'.
Proof.
  revert s. induction ops as [|op rest IH]; intros s Hinv Hdef; [by eexists|].
  cbn [program_defined] in Hdef. destruct Hdef as [Hop Hrest].
  cbn [run_apis]. destruct (run_api_defined O op s Hinv Hop) as [s1 E].
  rewrite E in *. apply IH; [by eapply run_api_inv|done].
Qed.

(** X18. Every program whose calls are given live objects and write their 8
    bytes inside the address space ([program_defined]) runs to a state, with
    calls that return or throw, and keeps the layout of the world: the
    address space stays well-formed with exactly the pages below the cursor
    flagged, each object has a page-aligned base of its own below the
    cursor, there are as many objects as pages in use, and the registry has
    distinct keys, each the name of the live library it maps to. *)
Theorem programs_keep_the_layout O ops :
  program_defined O ops (fresh_linker World_new) ->
  exists s, run_apis O ops (fresh_linker World_new) = Some s /\ Linking_inv s.
Proof. apply run_apis_defined, fresh_linker_inv. Qed.

Lemma programs_keep_the_layout_witness :
  let ops := [ApiLibrary "liba.so"; ApiAddSymbol 0%nat "f" 0x10;
              ApiAddSymbol 0%nat "g" 0x100; ApiExecutable "app";
              ApiAddDependency 0%nat 0%nat; ApiAddRelocation 0%nat "f" 0;
              ApiAddRelocation 0%nat "h" 8; ApiLink 0%nat;
              ApiLibrary "liba.so"; ApiLoadLibrary 1%nat] in
  let s := default (fresh_linker World_new)
             (run_apis newest_first ops (fresh_linker World_new)) in
  loadedLibraries (linker s) = [("liba.so", 1%nat)] /\ Linking_inv s.
Proof.
  intros ops s. split; [vm_compute; reflexivity|].
  assert (Hdef : program_defined newest_first ops (fresh_linker World_new))
    by by_compute.
  destruct (programs_keep_the_layout newest_first ops Hdef) as (s1 & Hrun & Hinv).
  unfold s. rewrite Hrun. exact Hinv.
Defined.

(** X19. In the state that such a program reaches, [addSymbol] with an
    offset that keeps the 8 bytes inside the page of the library returns: it
    does not fault. *)
Theorem addSymbol_in_own_page_returns O ops :
  program_defined O ops (fresh_linker World_new) ->
  exists s, run_apis O ops (fresh_linker World_new) = Some s /\
    forall lib l n off,
      libs (world s) !! lib = Some l ->
      0 <= off <= PAGE_SIZE - 8 ->
      exists w', addSymbol lib n off (world s) = Ret tt w'.
Proof.
  intros Hdef.
  destruct (run_apis_defined O ops _ fresh_linker_inv Hdef) as (s & Hrun & Hs).
  exists s. split; [done|]. intros lib l n off Hl Hoff.
  pose proof (inv_world _ Hs) as Hinv.
  rewrite (addSymbol_unfold _ _ _ _ _ Hl). unfold on_vm, zoom. cbn [set_lib vm].
  destruct (in_page_write (world s) (lib_base_address l) off (le_bytes 8 dummy_func))
    as [v' E]; [done| |lia|rewrite le_bytes_length; lia|].
  - unfold bases. apply elem_of_app. left. apply list_elem_of_fmap.
    exists l. split; [done|]. by eapply list_elem_of_lookup_2.
  - rewrite E. eauto.
Qed.

Lemma addSymbol_in_own_page_returns_witness :
  let ops := [ApiLibrary "liba.so"; ApiExecutable "app"; ApiLibrary "libb.so";
              ApiAddSymbol 0%nat "g" 0x2fc] in
  let s := default (fresh_linker World_new)
             (run_apis newest_first ops (fresh_linker World_new)) in
  exists w', addSymbol 1%nat "f" 248 (world s) = Ret tt w'.
Proof.
  intros ops s.
  assert (Hdef : program_defined newest_first ops (fresh_linker World_new))
    by by_compute.
  destruct (addSymbol_in_own_page_returns newest_first ops Hdef) as (s1 & Hrun & Hall).
  unfold s. rewrite Hrun. cbn [default].
  assert (Hl : libs (world s) !! 1%nat =
               Some {| lib_name := "libb.so"; lib_base_address := 512;
                       symbols := ∅ |}) by by_compute.
  unfold s in Hl. rewrite Hrun in Hl. cbn [default] in Hl.
  apply (Hall 1%nat _ "f" 248 Hl). vm_compute. split; discriminate.
Defined.

(** X20. In the state that such a program reaches, linking an executable
    whose dependencies are live libraries and whose relocation offsets keep
    the 8 bytes inside its page either returns or throws UnresolvedSymbol
    for the symbol of one of its relocations: it does not fault and does not
    leave defined behaviour. *)
Theorem linkExecutable_in_page_never_faults O ops :
  program_defined O ops (fresh_linker World_new) ->
  exists s, run_apis O ops (fresh_linker World_new) = Some s /\
    forall exe e,
      exes (world s) !! exe = Some e ->
      Forall (fun dep => is_Some (libs (world s) !! dep)) (dependencies e) ->
      Forall (fun r => 0 <= offset r <= PAGE_SIZE - 8) (relocations e) ->
      (exists s', linkExecutable O exe s = Ret tt s') \/
      (exists r s', r ∈ relocations e /\
         linkExecutable O exe s = Throw (UnresolvedSymbol (symbolName r)) s').
Proof.
  intros Hdef.
  destruct (run_apis_defined O ops _ fresh_linker_inv Hdef) as (s & Hrun & Hinv).
  exists s. split; [done|]. intros exe e Hexe Hdeps Hrs.
  unfold linkExecutable, bind. rewrite (in_world_deref_exe _ _ _ Hexe).
  destruct (load_dependencies_returns O _ _ Hdeps) as [s1 E]. rewrite E.
  assert (Hfin : final_state (load_dependencies O (dependencies e) s) = Some s1)
    by by rewrite E.
  apply load_dependencies_inv in Hfin as [Hinv1 Hw1]; [|done].
  apply (relocate_all_in_page exe _ s1 e); [done|by rewrite Hw1|done].
Qed.

Lemma linkExecutable_in_page_never_faults_witness :
  let ops := [ApiLibrary "liba.so"; ApiAddSymbol 0%nat "f" 0x10;
              ApiExecutable "app"; ApiAddDependency 0%nat 0%nat;
              ApiAddRelocation 0%nat "f" 0; ApiAddRelocation 0%nat "f" 248] in
  let s := default (fresh_linker World_new)
             (run_apis oldest_first ops (fresh_linker World_new)) in
  returned (linkExecutable oldest_first 0%nat s) = Some tt.
Proof.
  intros ops s.
  assert (Hdef : program_defined oldest_first ops (fresh_linker World_new))
    by by_compute.
  destruct (linkExecutable_in_page_never_faults oldest_first ops Hdef)
    as (s1 & Hrun & Hall).
  assert (He : exes (world s) !! 0%nat =
               Some {| exe_name := "app"; exe_base_address := 256;
                       dependencies := [0%nat];
                       relocations := [mkRelocation "f" 0; mkRelocation "f" 248];
                       symbolAddresses := ∅ |}) by by_compute.
  assert (Hdeps : Forall (fun dep => is_Some (libs (world s) !! dep)) [0%nat]).
  { repeat constructor. vm_compute. eauto. }
  assert (Hrs : Forall (fun r => 0 <= offset r <= PAGE_SIZE - 8)
                       [mkRelocation "f" 0; mkRelocation "f" 248]).
  { repeat constructor; vm_compute; discriminate. }
  assert (Hs : s1 = s) by (unfold s; by rewrite Hrun).
  subst s1.
  destruct (Hall 0%nat _ He Hdeps Hrs) as [[s' E]|(r & s' & _ & E)].
  - by rewrite E.
  - exfalso. assert (Hr : thrown (linkExecutable oldest_first 0%nat s) = None)
      by (vm_compute; reflexivity).
    by rewrite E in Hr.
Defined.

(** * Linking again *)















